(** * font_patch.py: locating, patching and splicing the glyph bundle

    A shallow embedding of [src/font/font_patch.py].  Python integers are
    [Z], [bytes] and [bytearray] values are lists of integers (each element
    of a real byte string lies in [0, 256)), dictionaries are [gmap]s, and
    the effects of the script (the files it reads and writes, what it
    prints, the calls it makes into the zstandard library, [sys.exit] and
    uncaught exceptions) are threaded through a state-and-exception monad. *)

From Stdlib Require Import ZArith Lia Ascii.
From stdpp Require Import base tactics option list list_numbers sorting strings gmap.

Local Open Scope Z_scope.

(** ** Byte strings *)

Abbreviation bytes := (list Z).

Definition len {A} (l : list A) : Z := Z.of_nat (length l).

(** Normalisation of a slice bound against a sequence of length [n], as
    Python does for [s[i:]], [s[i:j]] and the [start] argument of [find]:
    a negative bound counts from the end, and the result is clipped to
    [0, n]. *)
Definition slice_bound (n i : Z) : Z :=
  if i <? 0 then Z.max 0 (i + n) else Z.min i n.

(** [s[lo:]] *)
Definition slice_from {A} (s : list A) (lo : Z) : list A :=
  drop (Z.to_nat (slice_bound (len s) lo)) s.

(** [b[lo:hi] = v] on a bytearray: the (possibly empty) slice is removed and
    [v] put in its place, whatever the length of [v]. *)
Definition setslice (b : bytes) (lo hi : Z) (v : bytes) : bytes :=
  let l := slice_bound (len b) lo in
  let h := Z.max l (slice_bound (len b) hi) in
  take (Z.to_nat l) b ++ v ++ drop (Z.to_nat h) b.

(** [s.startswith(sub)] *)
Fixpoint startswith (s sub : bytes) {struct sub} : bool :=
  match sub, s with
  | [], _ => true
  | _ :: _, [] => false
  | x :: sub', y :: s' => (x =? y) && startswith s' sub'
  end.

(** The search of [find] over the part [s] of the string that begins at
    index [i]: the lowest index at which [sub] starts, or -1. *)
Fixpoint find_in (s sub : bytes) (i : Z) : Z :=
  if startswith s sub then i
  else match s with
       | [] => -1
       | _ :: s' => find_in s' sub (i + 1)
       end.

(** [s.find(sub, start)] *)
Definition find (s sub : bytes) (start : Z) : Z :=
  if len s <? start then -1
  else let p := slice_bound (len s) start in
       find_in (drop (Z.to_nat p) s) sub p.

(** ** Constants of the script *)

Definition GLYPH_W : Z := 16.
Definition GLYPH_H : Z := 16.
Definition BYTES_PER_ROW : Z := 2.
Definition BYTES_PER_GLYPH : Z := GLYPH_H * BYTES_PER_ROW.
Definition EXPECTED_SIZE : Z := 0x10000 * BYTES_PER_GLYPH.
Definition MAGIC : bytes := [0x28; 0xB5; 0x2F; 0xFD].

Definition HANGUL_SYLLABLES : list (Z * Z) := [(0xAC00, 0xD7A4)].
Definition JAPANESE_KANA : list (Z * Z) :=
  [(0x3040, 0x309F); (0x30A0, 0x30FF); (0x31F0, 0x31FF)].
Definition CJK_UNIFIED_IDEOGRAPHS : list (Z * Z) := [(0x4E00, 0x9FFF)].
Definition LATIN_BASIC : list (Z * Z) := [(0x0041, 0x005B); (0x0061, 0x007B)].
Definition LATIN_ACCENTED : list (Z * Z) := LATIN_BASIC ++ [(0x00C0, 0x00FF)].
Definition LATIN_EXT_A : list (Z * Z) := LATIN_ACCENTED ++ [(0x0100, 0x017F)].
Definition CYRILLIC : list (Z * Z) := [(0x0400, 0x04FF)].
Definition DIGITS : list (Z * Z) := [(0x0030, 0x003A)].

Definition FONT_RANGES_items : list (string * list (Z * Z)) :=
  [ ("ko", HANGUL_SYLLABLES);
    ("ja", (JAPANESE_KANA ++ CJK_UNIFIED_IDEOGRAPHS)%list);
    ("en", LATIN_BASIC);
    ("fr", LATIN_ACCENTED);
    ("frCA", LATIN_ACCENTED);
    ("de", LATIN_ACCENTED);
    ("it", LATIN_ACCENTED);
    ("nl", LATIN_ACCENTED);
    ("es", LATIN_ACCENTED);
    ("es419", LATIN_ACCENTED);
    ("pt", LATIN_ACCENTED);
    ("ptBR", LATIN_ACCENTED);
    ("pl", LATIN_EXT_A);
    ("ru", CYRILLIC);
    ("ua", CYRILLIC) ]%string.

Definition FONT_RANGES : gmap string (list (Z * Z)) :=
  list_to_map FONT_RANGES_items.

(** ** Effects *)

Inductive exn : Type :=
  | SystemExit (code : Z)
  | IndexError
  | ValueError
  | FileNotFoundError
  | NoProgress.   (* the model's loop bound was reached; shown unreachable *)

Inductive result (A : Type) : Type :=
  | Ok (a : A)
  | Err (e : exn).
Arguments Ok {A} a.
Arguments Err {A} e.

#[export] Instance result_ret : MRet result := λ A a, Ok a.
#[export] Instance result_bind : MBind result := λ A B f r,
  match r with
  | Ok a => f a
  | Err e => Err e
  end.

(** A call into the zstandard library, with the arguments it was given. *)
Inductive zstd_call : Type :=
  | Zdecompress (data : bytes) (max_output_size : Z)
  | Zcompress (level : Z) (data : bytes).

Record world : Type := World {
  fs : gmap string bytes;       (* the files on disk, by path *)
  stdout : list string;         (* the lines printed so far *)
  zstd_calls : list zstd_call   (* the library calls made so far *)
}.

Definition M (A : Type) : Type := world → result A * world.

#[export] Instance M_ret : MRet M := λ A a w, (Ok a, w).
#[export] Instance M_bind : MBind M := λ A B f m w,
  match m w with
  | (Ok a, w') => f a w'
  | (Err e, w') => (Err e, w')
  end.

Definition raise {A} (e : exn) : M A := λ w, (Err e, w).
Definition lift {A} (r : result A) : M A := λ w, (r, w).
Definition sys_exit {A} (code : Z) : M A := raise (SystemExit code).

Definition print (line : string) : M unit := λ w,
  (Ok tt, World (fs w) (stdout w ++ [line]) (zstd_calls w)).

Definition read_bytes (path : string) : M bytes := λ w,
  match fs w !! path with
  | Some b => (Ok b, w)
  | None => (Err FileNotFoundError, w)
  end.

Definition write_bytes (path : string) (b : bytes) : M unit := λ w,
  (Ok tt, World (<[path := b]> (fs w)) (stdout w) (zstd_calls w)).

(** ** Python built-ins used by the script *)

(** [range(n)] and [range(start, stop)] *)
Definition range (start stop : Z) : list Z := seqZ start (stop - start).

(** [l[i]] on a list *)
Definition list_getitem {A} (l : list A) (i : Z) : result A :=
  let j := if i <? 0 then i + len l else i in
  if (0 <=? j) && (j <? len l)
  then match l !! Z.to_nat j with
       | Some x => Ok x
       | None => Err IndexError
       end
  else Err IndexError.

(** [b[i] = v] on a bytearray *)
Definition bytearray_setitem (b : bytes) (i v : Z) : result bytes :=
  let j := if i <? 0 then i + len b else i in
  if (0 <=? j) && (j <? len b)
  then if (0 <=? v) && (v <? 256)
       then Ok (<[Z.to_nat j := v]> b)
       else Err ValueError
  else Err IndexError.

(** [a << n] *)
Definition lshift (a n : Z) : result Z :=
  if n <? 0 then Err ValueError else Ok (Z.shiftl a n).

(** [chr(cp)]; a character is kept as its code point. *)
Definition chr (cp : Z) : result Z :=
  if (0 <=? cp) && (cp <? 0x110000) then Ok cp else Err ValueError.

(** A [for] loop over [l] whose body updates one variable and may raise. *)
Fixpoint for_each {A B} (l : list A) (b : B) (body : B → A → result B)
    : result B :=
  match l with
  | [] => Ok b
  | x :: l' => b' ← body b x; for_each l' b' body
  end.

(** ** The script *)

Record cfg : Type := Cfg { font_num : bool }.

(** What reading [config.txt] comes to in [load_config]: the value left in
    [cfg["font_num"]], and whether opening or reading the file raised. *)
Record config_read : Type := ConfigRead {
  read_font_num : bool;
  read_failed : bool
}.

Section Script.

(** The zstandard library: [ZstdDecompressor().decompress(data,
    max_output_size)], which returns the decompressed bytes or raises
    ([None]), and [ZstdCompressor(level).compress(data)]. *)
Variable zstd_decompress : bytes → Z → option bytes.
Variable zstd_compress : Z → bytes → bytes.

(** Pillow: a loaded font, [ImageFont.truetype(path, size)], and the
    luminance [render ft ch cx cy] that [img.getpixel((cx, cy))] reads in
    [rasterize_char] after [draw.text] has drawn [ch] on the black 16x16
    image at the place computed from the font's metrics. *)
Variable font : Type.
Variable truetype : string → Z → font.
Variable render : font → Z → Z → Z → Z.

(** The surroundings of a run: the [*.ttf] and [*.otf] files of [font/],
    in the order [pick_font] lists them, and the outcome of reading
    [config.txt] line by line. *)
Variable font_files : list string.
Variable config_txt : config_read.

Definition decompress (data : bytes) (max_output_size : Z)
    : M (option bytes) := λ w,
  (Ok (zstd_decompress data max_output_size),
   World (fs w) (stdout w)
         (zstd_calls w ++ [Zdecompress data max_output_size])).

Definition compress (level : Z) (data : bytes) : M bytes := λ w,
  (Ok (zstd_compress level data),
   World (fs w) (stdout w) (zstd_calls w ++ [Zcompress level data])).

Definition load_config : M cfg :=
  let cfg := Cfg (read_font_num config_txt) in
  if read_failed config_txt then
    print "[WARN] config.txt not found → using default settings";;
    mret cfg
  else mret cfg.

Definition pick_font : M string :=
  match font_files with
  | [] => print "[ERROR] TTF/OTF Not found.";; sys_exit 1
  | f :: _ => mret f
  end.

(** The [while True] loop of [find_font_bundle], lines 73-78; [fuel]
    bounds the number of iterations. *)
Fixpoint scan (fuel : nat) (raw : bytes) (p : Z) (positions : list Z)
    : option (list Z) :=
  match fuel with
  | O => None
  | S fuel' =>
      let i := find raw MAGIC p in
      if i <? 0 then Some positions
      else scan fuel' raw (i + 1) (positions ++ [i])
  end.

(** Lines 85-86: the room left for the bundle found at [pos]. *)
Definition limit_at (raw : bytes) (positions : list Z) (pos : Z) : Z :=
  let nxt := filter (λ x, x > pos) positions in
  match nxt with
  | x :: _ => x - pos
  | [] => len raw - pos
  end.

(** The [for pos in positions] loop of [find_font_bundle], lines 81-89,
    over the positions [todo] still to try; [None] when the loop ends
    without returning. *)
Fixpoint try_positions (raw : bytes) (positions todo : list Z)
    : M (option (Z * bytes * Z)) :=
  match todo with
  | [] => mret None
  | pos :: todo' =>
      r ← decompress (slice_from raw pos) EXPECTED_SIZE;
      match r with
      | Some dec =>
          if len dec =? EXPECTED_SIZE then
            mret (Some (pos, dec, limit_at raw positions pos))
          else try_positions raw positions todo'
      | None => try_positions raw positions todo'
      end
  end.

Definition find_font_bundle (raw : bytes) : M (Z * bytes * Z) :=
  match scan (S (length raw)) raw 0 [] with
  | None => raise NoProgress
  | Some positions =>
      r ← try_positions raw positions positions;
      match r with
      | Some found => mret found
      | None =>
          print "[FONT] No valid font bundle found in NRO.";;
          sys_exit 1
      end
  end.

Definition rasterize_char (ft : font) (ch : Z) : list (list bool) :=
  (λ cy, (λ cx, render ft ch cx cy >? 128) <$> range 0 GLYPH_W)
    <$> range 0 GLYPH_H.

(** Lines 150-153: the bits of one row, from column [bit] on. *)
Fixpoint row_bits (row : list bool) (bit v : Z) : result Z :=
  match row with
  | [] => Ok v
  | on :: row' =>
      v' ← (if on : bool
            then m ← lshift 1 (15 - bit); Ok (Z.lor v m)
            else Ok v);
      row_bits row' (bit + 1) v'
  end.

(** Lines 149-155: the body of the loop over the rows of a glyph. *)
Definition write_row (off : Z) (bitmap : list (list bool))
    (bundle : bytes) (r : Z) : result bytes :=
  row ← list_getitem bitmap r;
  v ← row_bits row 0 0;
  bundle ← bytearray_setitem bundle (off + r * 2) (Z.land v 0xFF);
  bytearray_setitem bundle (off + r * 2 + 1) (Z.land (Z.shiftr v 8) 0xFF).

(** Lines 148-155: the loop over the rows, which stores the glyph of
    [bitmap] in [bundle] from offset [off] on. *)
Definition write_glyph (off : Z) (bitmap : list (list bool))
    (bundle : bytes) : result bytes :=
  for_each (range 0 GLYPH_H) bundle (write_row off bitmap).

(** Lines 145-155: the body of the loop over the code points of a range. *)
Definition patch_glyph (ft : font) (bundle : bytes) (cp : Z)
    : result bytes :=
  ch ← chr cp;
  let bitmap := rasterize_char ft ch in
  let off := cp * BYTES_PER_GLYPH in
  write_glyph off bitmap bundle.

(** Lines 143-155: the loop over the ranges. *)
Definition patch_ranges (ft : font) (ranges : list (Z * Z))
    (bundle : bytes) : result bytes :=
  for_each ranges bundle
    (λ bundle '(start, stop), for_each (range start stop) bundle (patch_glyph ft)).

(** Lines 157-166, the end of [main]: the patched bundle is compressed
    again, checked against the room found by the locator, spliced into the
    buffer and written to the file. *)
Definition write_back (nro_path : string) (raw : bytes)
    (offset limit : Z) (bundle : bytes) : M unit :=
  comp ← compress 22 bundle;
  if len comp >? limit then
    print "[ERROR] Compressed bundle too large!!";; sys_exit 1
  else
    let raw := setslice raw offset (offset + len comp) comp in
    write_bytes nro_path raw;;
    print "[FONT] Font patch complete.".

Definition main (argv : list string) : M unit :=
  if len argv <? 3 then
    print "Usage: font_patch.py <lang> <path_to_dbi_nro>";; sys_exit 1
  else
    lang ← lift (list_getitem argv 1);
    nro_path ← lift (list_getitem argv 2);
    cfg ← load_config;
    match FONT_RANGES !! lang with
    | None =>
        print ("[FONT] Language '" +:+ lang +:+ "' has no font range → SKIP");;
        sys_exit 0
    | Some lang_ranges =>
        raw ← read_bytes nro_path;
        '(offset, bundle, limit) ← find_font_bundle raw;
        print ("[FONT] Using font ranges for '" +:+ lang +:+ "'");;
        print ("[FONT] Patching file: " +:+ nro_path);;
        ranges ← (if font_num cfg
                  then print "[FONT] font_num=true → adding digits";;
                       mret (lang_ranges ++ DIGITS)
                  else mret lang_ranges);
        font_path ← pick_font;
        let ft := truetype font_path 16 in
        bundle ← lift (patch_ranges ft ranges bundle);
        write_back nro_path raw offset limit bundle
    end.

End Script.

Arguments rasterize_char {font} render ft ch.
Arguments patch_glyph {font} render ft bundle cp.
Arguments patch_ranges {font} render ft ranges bundle.
Arguments main zstd_decompress zstd_compress {font} truetype render
  font_files config_txt argv.

(** ** [load_config], line by line *)

(** [line.split("=", 1)] for a line that contains ["="]: the text before
    the first ["="] and the text after it; [None] when ["=" not in line]. *)
Fixpoint split_at_equals (line : string) : option (string * string) :=
  match line with
  | EmptyString => None
  | String c rest =>
      if Ascii.eqb c "="%char then Some (EmptyString, rest)
      else match split_at_equals rest with
           | Some (key, val) => Some (String c key, val)
           | None => None
           end
  end.

Section ConfigFile.

(** [str.strip()] and [str.lower()]. *)
Variable strip : string → string.
Variable lower : string → string.

(** Lines 49-57: the body of the loop over the lines of [config.txt],
    acting on [cfg["font_num"]]. *)
Definition config_line (font_num : bool) (line : string) : bool :=
  let line := strip line in
  match split_at_equals line with
  | None => font_num
  | Some (key, val) =>
      let key := strip key in
      let val := lower (strip val) in
      if String.eqb key "font_num" then String.eqb val "true" else font_num
  end.

(** Lines 44-61, for a file that cannot be opened ([None]) or that is read
    to its end. *)
Definition read_config (config_file : option (list string)) : config_read :=
  match config_file with
  | Some lines => ConfigRead (fold_left config_line lines false) false
  | None => ConfigRead false true
  end.

(** The line sets [font_num] to [value]. *)
Definition assigns_font_num (line : string) (value : bool) : Prop :=
  ∃ key val,
    split_at_equals (strip line) = Some (key, val) ∧
    strip key = "font_num"%string ∧
    value = String.eqb (lower (strip val)) "true".

End ConfigFile.

(** * The vocabulary of the specification *)

(** [MAGIC] occurs in [raw] at offset [i]: [raw[i:i+4] == MAGIC]. *)
Definition occurs (raw : bytes) (i : Z) : Prop :=
  0 ≤ i ∧ take (length MAGIC) (drop (Z.to_nat i) raw) = MAGIC.

#[export] Instance occurs_dec raw i : Decision (occurs raw i).
Proof. unfold occurs. apply _. Defined.

(** Every offset of [raw] where the magic occurs, in ascending order. *)
Definition occurrences_from (raw : bytes) (p : Z) : list Z :=
  filter (occurs raw) (seqZ p (len raw - p)).

Definition occurrences (raw : bytes) : list Z := occurrences_from raw 0.

(** The candidate at [pos] validates: the decompression the locator
    attempts there succeeds with a table of exactly the expected size. *)
Definition decompresses_to (zstd_decompress : bytes → Z → option bytes)
    (raw : bytes) (pos : Z) (table : bytes) : Prop :=
  zstd_decompress (slice_from raw pos) EXPECTED_SIZE = Some table ∧
  len table = EXPECTED_SIZE.

Definition rejected (zstd_decompress : bytes → Z → option bytes)
    (raw : bytes) (pos : Z) : Prop :=
  ∀ table, ¬ decompresses_to zstd_decompress raw pos table.

(** The library calls made when the candidates [tried] are attempted. *)
Definition attempts (raw : bytes) (tried : list Z) : list zstd_call :=
  (λ pos, Zdecompress (slice_from raw pos) EXPECTED_SIZE) <$> tried.

Definition logged (w : world) (calls : list zstd_call) : world :=
  World (fs w) (stdout w) (zstd_calls w ++ calls).

Definition not_found_message : string :=
  "[FONT] No valid font bundle found in NRO.".

Definition too_large_message : string := "[ERROR] Compressed bundle too large!!".
Definition complete_message : string := "[FONT] Font patch complete.".

(** The ranges patched: those of the language, and the digits when the
    configuration asks for them. *)
Definition selected_ranges (config_txt : config_read)
    (lang_ranges : list (Z * Z)) : list (Z * Z) :=
  if read_font_num config_txt then lang_ranges ++ DIGITS else lang_ranges.

(** A bitmap of 16 rows of 16 pixels. *)
Definition grid16 (bitmap : list (list bool)) : Prop :=
  length bitmap = 16%nat ∧ Forall (λ row, length row = 16%nat) bitmap.

(** The 16-bit value of a row: bit [15 - col] is the pixel of column
    [col]. *)
Definition row_word_of (row : list bool) (v : Z) : Prop :=
  0 ≤ v < 2 ^ 16 ∧
  ∀ (col : nat) (on : bool),
    row !! col = Some on → Z.testbit v (15 - Z.of_nat col) = on.

(** The two bytes of a row value, low byte first. *)
Definition word_bytes (v : Z) : bytes := [v `mod` 256; v `div` 256].
Arguments word_bytes : simpl never.

(** The bytes of a glyph: two per row value, in the order of the rows. *)
Definition glyph_bytes (words : list Z) : bytes := concat (word_bytes <$> words).

(** The [pack] of the specification: the 32 bytes the loop of lines 148-155
    stores for a bitmap, here into a fresh buffer of 32 bytes. *)
Definition pack (bitmap : list (list bool)) : result bytes :=
  write_glyph 0 bitmap (replicate 32 0).

(** Modelled from the spec: [unpack], which the script does not have (it
    only ever encodes).  It reads a glyph as the data model describes it:
    two bytes per row, low byte first, and bit 15 of the 16-bit row value
    is the leftmost column. *)
Definition unpack (glyph : bytes) : list (list bool) :=
  (λ r, let v := glyph !!! Z.to_nat (r * 2)
                 + 256 * glyph !!! Z.to_nat (r * 2 + 1) in
        (λ col, Z.testbit v (15 - col)) <$> range 0 GLYPH_W)
    <$> range 0 GLYPH_H.

(** [b'] has the length of [b] and differs from it at most at the indices
    in [T]. *)
Definition same_outside (T : nat → Prop) (b b' : bytes) : Prop :=
  length b' = length b ∧ ∀ i, ¬ T i → b' !! i = b !! i.

(** The glyph regions of the code points of [ranges]. *)
Definition in_patched_region (ranges : list (Z * Z)) (i : nat) : Prop :=
  ∃ start stop cp,
    (start, stop) ∈ ranges ∧ start ≤ cp < stop ∧
    cp * 32 ≤ Z.of_nat i < cp * 32 + 32.

(** ** Further vocabulary *)

(** The 32 bytes of the table that hold the glyph of [cp]:
    [table[cp*32 : cp*32+32]]. *)
Definition glyph_at (table : bytes) (cp : Z) : bytes :=
  take 32 (drop (Z.to_nat (cp * 32)) table).

(** The table holds, in the place of code point [cp], the glyph the font
    gives for it. *)
Definition holds_glyph {font : Type} (render : font → Z → Z → Z → Z)
    (ft : font) (table : bytes) (cp : Z) : Prop :=
  0 ≤ cp < 0x110000 ∧ cp * 32 + 32 ≤ len table ∧
  pack (rasterize_char render ft cp) = Ok (glyph_at table cp).





(** * A worked example

    A buffer with four occurrences of the magic: a decoy that decompresses
    to one byte, a decoy that fails to decompress, the bundle, and a later
    occurrence that is never attempted. *)

Definition example_decompress (data : bytes) (max_output_size : Z)
    : option bytes :=
  match data with
  | _ :: _ :: _ :: _ :: 1 :: _ => Some (replicate (Z.to_nat max_output_size) 0)
  | _ :: _ :: _ :: _ :: 2 :: _ => Some [0]
  | _ => None
  end.

Definition example_compress (level : Z) (data : bytes) : bytes :=
  MAGIC ++ [1].

Definition example_buffer : bytes :=
  [9] ++ MAGIC ++ [2] ++ MAGIC ++ [3; 7] ++ MAGIC ++ [1; 5; 5] ++ MAGIC ++ [8; 8].

Definition example_table : bytes := replicate (Z.to_nat EXPECTED_SIZE) 0.

Definition example_render (ft : unit) (ch cx cy : Z) : Z :=
  if (cx + cy + ch) `mod` 3 =? 0 then 255 else 0.

Definition example_bitmap : list (list bool) :=
  rasterize_char example_render tt 0xAC00.

Definition example_world : world :=
  World {[ "dbi.nro"%string := example_buffer ]} [] [].

Definition example_argv : list string :=
  ["font_patch.py"; "en"; "dbi.nro"]%string.

Definition example_main : M unit :=
  main example_decompress example_compress (λ _ _, tt) example_render
       ["font/a.ttf"%string] (ConfigRead false true) example_argv.

(** ** More of the worked example *)

Definition example_glyph : bytes :=
  Eval vm_compute in
    match pack example_bitmap with
    | Ok g => g
    | Err _ => []
    end.


(** * The magic sequence and the scan *)

Lemma len_nonneg {A} (l : list A) : 0 ≤ len l.
Proof. unfold len. lia. Qed.

Lemma len_app {A} (l k : list A) : len (l ++ k) = len l + len k.
Proof. unfold len. rewrite length_app. lia. Qed.

Lemma startswith_inv s sub :
  startswith s sub = true → ∃ post, s = sub ++ post.
Proof.
  revert s. induction sub as [|x sub IH]; intros s H.
  - by exists s.
  - destruct s as [|y s]; simpl in H; [done|].
    apply andb_true_iff in H as [Hxy Hrest].
    apply Z.eqb_eq in Hxy as ->.
    destruct (IH _ Hrest) as [post ->]. by exists post.
Qed.

Lemma startswith_app sub post : startswith (sub ++ post) sub = true.
Proof.
  induction sub as [|x sub IH]; simpl; [done|].
  by rewrite Z.eqb_refl, IH.
Qed.

Lemma startswith_take s sub :
  startswith s sub = true ↔ take (length sub) s = sub.
Proof.
  split.
  - intros [post ->]%startswith_inv. by rewrite take_app_length.
  - intros Htake. rewrite <- (take_drop (length sub) s), Htake.
    apply startswith_app.
Qed.

Lemma occurs_startswith raw i :
  occurs raw i ↔ 0 ≤ i ∧ startswith (drop (Z.to_nat i) raw) MAGIC = true.
Proof. unfold occurs. by rewrite startswith_take. Qed.

Lemma occurs_bounds raw i : occurs raw i → 0 ≤ i ∧ i + 4 ≤ len raw.
Proof.
  intros [Hi Htake]. split; [done|].
  apply (f_equal length) in Htake.
  rewrite length_take, length_drop in Htake.
  change (length MAGIC) with 4%nat in Htake. unfold len. lia.
Qed.

(** [find_in] returns the first index at or after [i] where [sub] starts. *)
Lemma find_in_found s sub i (k : nat) :
  startswith (drop k s) sub = true →
  (∀ j : nat, (j < k)%nat → startswith (drop j s) sub = false) →
  find_in s sub i = i + Z.of_nat k.
Proof.
  revert s i. induction k as [|k IH]; intros s i Hk Hlt.
  - rewrite drop_0 in Hk. destruct s; simpl; rewrite Hk; lia.
  - pose proof (Hlt 0%nat ltac:(lia)) as H0. rewrite drop_0 in H0.
    destruct s as [|y s].
    { rewrite drop_nil in Hk. congruence. }
    simpl find_in. rewrite H0. rewrite (IH s (i + 1)); [lia|done|].
    intros j Hj. apply (Hlt (S j)). lia.
Qed.

Lemma find_in_absent s sub i :
  (∀ j : nat, startswith (drop j s) sub = false) →
  find_in s sub i = -1.
Proof.
  revert i. induction s as [|y s IH]; intros i Hno.
  - pose proof (Hno 0%nat) as H0. simpl in *. by rewrite H0.
  - pose proof (Hno 0%nat) as H0. rewrite drop_0 in H0.
    simpl find_in. rewrite H0. apply IH. intros j. apply (Hno (S j)).
Qed.

(** Either [sub] starts nowhere in [s], or there is a first place. *)
Lemma first_start s sub :
  (∀ j : nat, startswith (drop j s) sub = false) ∨
  (∃ k : nat, startswith (drop k s) sub = true ∧
     ∀ j : nat, (j < k)%nat → startswith (drop j s) sub = false).
Proof.
  induction s as [|y s IH].
  - destruct (startswith [] sub) eqn:E.
    + right. exists 0%nat. split; [done|]. intros; lia.
    + left. intros j. by rewrite drop_nil.
  - destruct (startswith (y :: s) sub) eqn:E.
    { right. exists 0%nat. split; [done|]. intros; lia. }
    destruct IH as [Hno|(k & Hk & Hlt)].
    + left. intros [|j]; [done|]. apply Hno.
    + right. exists (S k). split; [done|].
      intros [|j] Hj; [done|]. apply Hlt. lia.
Qed.

(** What [raw.find(MAGIC, p)] returns for a start [p] that is not negative:
    the first offset at or after [p] where the magic occurs, or -1. *)
Lemma find_magic_spec raw p :
  0 ≤ p →
  (find raw MAGIC p = -1 ∧ ∀ i, p ≤ i → ¬ occurs raw i) ∨
  (p ≤ find raw MAGIC p ∧ occurs raw (find raw MAGIC p) ∧
   ∀ i, p ≤ i → i < find raw MAGIC p → ¬ occurs raw i).
Proof.
  intros Hp. unfold find.
  destruct (Z.ltb_spec (len raw) p) as [Hlt|Hle].
  { left. split; [done|]. intros i Hi Hocc. apply occurs_bounds in Hocc. lia. }
  unfold slice_bound. destruct (Z.ltb_spec p 0); [lia|].
  rewrite Z.min_l by done.
  destruct (first_start (drop (Z.to_nat p) raw) MAGIC) as [Hno|(k & Hk & Hfirst)].
  - left. split; [by apply find_in_absent|].
    intros i Hi Hocc. apply occurs_startswith in Hocc as [_ Hocc].
    specialize (Hno (Z.to_nat (i - p))). rewrite drop_drop in Hno.
    replace (Z.to_nat p + Z.to_nat (i - p))%nat with (Z.to_nat i) in Hno by lia.
    congruence.
  - right. rewrite (find_in_found _ _ _ k Hk Hfirst).
    rewrite drop_drop in Hk. split; [lia|]. split.
    + apply occurs_startswith. split; [lia|].
      by replace (Z.to_nat (p + Z.of_nat k)) with (Z.to_nat p + k)%nat by lia.
    + intros i Hi Hik Hocc. apply occurs_startswith in Hocc as [_ Hocc].
      specialize (Hfirst (Z.to_nat (i - p)) ltac:(lia)). rewrite drop_drop in Hfirst.
      replace (Z.to_nat p + Z.to_nat (i - p))%nat with (Z.to_nat i) in Hfirst by lia.
      congruence.
Qed.

Lemma filter_none {A} (P : A → Prop) `{!∀ x, Decision (P x)} (l : list A) :
  (∀ x, x ∈ l → ¬ P x) → filter P l = [].
Proof.
  induction l as [|x l IH]; intros Hall; [done|].
  rewrite filter_cons_False by (apply Hall; left).
  apply IH. intros y Hy. apply Hall. by right.
Qed.

Lemma elem_of_occurrences_from raw p i :
  i ∈ occurrences_from raw p ↔ p ≤ i ∧ occurs raw i.
Proof.
  unfold occurrences_from. rewrite list_elem_of_filter, elem_of_seqZ.
  split; [intros [? ?]; split; [lia|done]|].
  intros [Hp Hocc]. split; [done|].
  apply occurs_bounds in Hocc. lia.
Qed.

Lemma elem_of_occurrences raw i : i ∈ occurrences raw ↔ occurs raw i.
Proof.
  unfold occurrences. rewrite elem_of_occurrences_from.
  split; [by intros [_ ?]|]. intros H. split; [|done].
  by apply occurs_bounds in H as [? _].
Qed.

Lemma occurrences_from_none raw p :
  (∀ i, p ≤ i → ¬ occurs raw i) → occurrences_from raw p = [].
Proof.
  intros H. apply filter_none. intros i [Hi _]%elem_of_seqZ. by apply H.
Qed.

Lemma occurrences_from_first raw p i :
  p ≤ i → occurs raw i → (∀ j, p ≤ j → j < i → ¬ occurs raw j) →
  occurrences_from raw p = i :: occurrences_from raw (i + 1).
Proof.
  intros Hpi Hocc Hfirst. unfold occurrences_from.
  pose proof (occurs_bounds _ _ Hocc) as [_ Hlen].
  replace (len raw - p) with ((i - p) + (1 + (len raw - (i + 1)))) by lia.
  rewrite seqZ_app by lia. rewrite filter_app.
  rewrite (filter_none _ (seqZ p (i - p))); cycle 1.
  { intros j [? ?]%elem_of_seqZ. apply Hfirst; lia. }
  replace (p + (i - p)) with i by lia.
  rewrite seqZ_cons by lia. rewrite filter_cons_True by done.
  replace (Z.pred (1 + (len raw - (i + 1)))) with (len raw - (i + 1)) by lia.
  done.
Qed.

(** The offsets listed are strictly ascending. *)
Lemma seqZ_ascending m n : StronglySorted Z.lt (seqZ m n).
Proof.
  destruct (decide (0 ≤ n)) as [Hn|Hn]; cycle 1.
  { rewrite seqZ_nil by lia. constructor. }
  rewrite <- (Z2Nat.id n Hn). generalize (Z.to_nat n) as k. clear.
  intros k. revert m. induction k as [|k IH]; intros m.
  - constructor.
  - rewrite seqZ_cons by lia. constructor.
    + replace (Z.pred (Z.of_nat (S k))) with (Z.of_nat k) by lia. apply IH.
    + apply Forall_forall. intros x [? ?]%elem_of_seqZ. lia.
Qed.

Lemma StronglySorted_filter {A} (R : A → A → Prop) (P : A → Prop)
    `{!∀ x, Decision (P x)} (l : list A) :
  StronglySorted R l → StronglySorted R (filter P l).
Proof.
  induction 1 as [|x l Hl IH Hx]; [constructor|].
  rewrite filter_cons. case_decide; [|done].
  constructor; [done|].
  apply Forall_forall. intros y [_ Hy]%list_elem_of_filter.
  by eapply Forall_forall in Hx.
Qed.

Lemma occurrences_ascending raw : StronglySorted Z.lt (occurrences raw).
Proof. apply StronglySorted_filter, seqZ_ascending. Qed.

(** The scan loop terminates within its bound and lists every occurrence
    from [p] on. *)
Lemma scan_from raw (fuel : nat) p acc :
  0 ≤ p → (Z.to_nat (len raw - p) < fuel)%nat →
  scan fuel raw p acc = Some (acc ++ occurrences_from raw p).
Proof.
  revert p acc. induction fuel as [|fuel IH]; intros p acc Hp Hfuel; [lia|].
  simpl scan.
  destruct (find_magic_spec raw p Hp) as [[-> Hno]|(Hle & Hocc & Hfirst)].
  - simpl. rewrite occurrences_from_none by done. by rewrite app_nil_r.
  - destruct (Z.ltb_spec (find raw MAGIC p) 0); [lia|].
    pose proof (occurs_bounds _ _ Hocc) as [_ Hlen].
    rewrite IH by lia.
    rewrite (occurrences_from_first raw p _ Hle Hocc Hfirst).
    by rewrite <- app_assoc.
Qed.

Lemma scan_occurrences raw :
  scan (S (length raw)) raw 0 [] = Some (occurrences raw).
Proof.
  rewrite scan_from; [done|lia|]. unfold len. lia.
Qed.

(** * The locator *)

Lemma EXPECTED_SIZE_eq : EXPECTED_SIZE = 2097152.
Proof. reflexivity. Qed.

(** The smallest element of an ascending list above [pos] heads the list
    that [limit_at] filters out of it. *)
Lemma filter_above_head (l : list Z) pos x rest :
  StronglySorted Z.lt l →
  filter (λ y, y > pos) l = x :: rest →
  x ∈ l ∧ pos < x ∧ ∀ y, y ∈ l → pos < y → x ≤ y.
Proof.
  intros Hsorted Hfilter.
  assert (x ∈ filter (λ y, y > pos) l) as Hx by (rewrite Hfilter; left).
  apply list_elem_of_filter in Hx as [Hgt Hx].
  split; [done|]. split; [lia|].
  intros y Hy Hpos.
  assert (y ∈ filter (λ y, y > pos) l) as Hy'.
  { apply list_elem_of_filter. split; [lia|done]. }
  rewrite Hfilter in Hy'.
  apply (StronglySorted_filter _ (λ y, y > pos)) in Hsorted.
  rewrite Hfilter in Hsorted. apply StronglySorted_inv in Hsorted as [_ Hall].
  apply elem_of_cons in Hy' as [->|Hy']; [lia|].
  eapply Forall_forall in Hall; [|done]. lia.
Qed.

Lemma limit_at_next raw pos next :
  occurs raw next → pos < next →
  (∀ j, occurs raw j → pos < j → next ≤ j) →
  limit_at raw (occurrences raw) pos = next - pos.
Proof.
  intros Hocc Hlt Hleast. unfold limit_at.
  destruct (filter _ _) as [|x rest] eqn:Hfilter.
  - exfalso. eapply (filter_nil_not_elem_of _ _ next Hfilter); [lia|].
    by apply elem_of_occurrences.
  - apply filter_above_head in Hfilter as (Hx & Hposx & Hmin);
      [|apply occurrences_ascending].
    apply elem_of_occurrences in Hx.
    specialize (Hmin next ltac:(by apply elem_of_occurrences) Hlt).
    specialize (Hleast x Hx Hposx). lia.
Qed.

Lemma limit_at_last raw pos :
  (∀ j, occurs raw j → ¬ pos < j) →
  limit_at raw (occurrences raw) pos = len raw - pos.
Proof.
  intros Hlast. unfold limit_at.
  destruct (filter _ _) as [|x rest] eqn:Hfilter; [done|].
  apply filter_above_head in Hfilter as (Hx & Hposx & _);
    [|apply occurrences_ascending].
  apply elem_of_occurrences in Hx. by destruct (Hlast x Hx).
Qed.

(** The room found never reaches past the end of the buffer. *)
Lemma limit_at_bounds raw pos :
  occurs raw pos →
  0 < limit_at raw (occurrences raw) pos ≤ len raw - pos.
Proof.
  intros Hpos. unfold limit_at.
  destruct (filter _ _) as [|x rest] eqn:Hfilter.
  - apply occurs_bounds in Hpos. lia.
  - apply filter_above_head in Hfilter as (Hx & Hposx & _);
      [|apply occurrences_ascending].
    apply elem_of_occurrences, occurs_bounds in Hx. lia.
Qed.

Section Locator.

Variable zstd_decompress : bytes → Z → option bytes.

Lemma logged_nil w : logged w [] = w.
Proof. destruct w. unfold logged. simpl. by rewrite app_nil_r. Qed.

Lemma logged_app w c1 c2 : logged (logged w c1) c2 = logged w (c1 ++ c2).
Proof. unfold logged. simpl. by rewrite app_assoc. Qed.

Lemma try_positions_step raw positions pos todo w :
  try_positions zstd_decompress raw positions (pos :: todo) w =
  match zstd_decompress (slice_from raw pos) EXPECTED_SIZE with
  | Some dec =>
      if len dec =? EXPECTED_SIZE
      then (Ok (Some (pos, dec, limit_at raw positions pos)),
            logged w (attempts raw [pos]))
      else try_positions zstd_decompress raw positions todo
             (logged w (attempts raw [pos]))
  | None => try_positions zstd_decompress raw positions todo
              (logged w (attempts raw [pos]))
  end.
Proof.
  simpl. unfold mbind, M_bind, decompress. simpl.
  destruct (zstd_decompress _ _) as [dec|]; [|done].
  by destruct (len dec =? EXPECTED_SIZE).
Qed.

Lemma rejected_or_valid raw pos :
  rejected zstd_decompress raw pos ∨ ∃ table, decompresses_to zstd_decompress raw pos table.
Proof.
  unfold rejected, decompresses_to.
  destruct (zstd_decompress _ _) as [dec|] eqn:E.
  - destruct (decide (len dec = EXPECTED_SIZE)) as [Hlen|Hlen].
    + right. by exists dec.
    + left. intros table [[= ->] ?]. done.
  - left. intros table [? _]. done.
Qed.

(** Every candidate is rejected: the loop falls through, having attempted
    each of them in turn. *)
Lemma try_positions_rejected raw positions todo w :
  Forall (rejected zstd_decompress raw) todo →
  try_positions zstd_decompress raw positions todo w =
  (Ok None, logged w (attempts raw todo)).
Proof.
  intros Hall. revert w. induction Hall as [|pos todo Hpos _ IH]; intros w.
  - simpl. by rewrite logged_nil.
  - rewrite try_positions_step.
    assert (try_positions zstd_decompress raw positions todo
              (logged w (attempts raw [pos]))
            = (Ok None, logged w (attempts raw (pos :: todo)))) as Hrest.
    { rewrite IH, logged_app. done. }
    destruct (zstd_decompress _ _) as [dec|] eqn:E; [|done].
    destruct (Z.eqb_spec (len dec) EXPECTED_SIZE) as [Hlen|]; [|done].
    by destruct (Hpos dec).
Qed.

(** The first candidate that validates is returned, after the ones before
    it have been attempted and none after it. *)
Lemma try_positions_accepted raw positions before pos after table w :
  Forall (rejected zstd_decompress raw) before →
  decompresses_to zstd_decompress raw pos table →
  try_positions zstd_decompress raw positions (before ++ pos :: after) w =
  (Ok (Some (pos, table, limit_at raw positions pos)),
   logged w (attempts raw (before ++ [pos]))).
Proof.
  intros Hall [Hdec Hlen]. revert w.
  induction Hall as [|p before Hp _ IH]; intros w.
  - simpl app. rewrite try_positions_step, Hdec.
    by apply Z.eqb_eq in Hlen as ->.
  - simpl app. rewrite try_positions_step.
    assert (try_positions zstd_decompress raw positions (before ++ pos :: after)
              (logged w (attempts raw [p]))
            = (Ok (Some (pos, table, limit_at raw positions pos)),
               logged w (attempts raw (p :: before ++ [pos])))) as Hrest.
    { rewrite IH, logged_app. done. }
    destruct (zstd_decompress (slice_from raw p) _) as [dec|] eqn:E; [|done].
    destruct (Z.eqb_spec (len dec) EXPECTED_SIZE) as [Hlen'|]; [|done].
    by destruct (Hp dec).
Qed.

(** A list of candidates either holds none that validates, or splits at
    the first that does. *)
Lemma first_valid raw (todo : list Z) :
  Forall (rejected zstd_decompress raw) todo ∨
  ∃ before pos after table,
    todo = before ++ pos :: after ∧ Forall (rejected zstd_decompress raw) before ∧
    decompresses_to zstd_decompress raw pos table.
Proof.
  induction todo as [|p todo IH]; [by left|].
  destruct (rejected_or_valid raw p) as [Hp|[table Hp]].
  - destruct IH as [Hall|(before & pos & after & table & -> & Hall & Hpos)].
    + left. by constructor.
    + right. exists (p :: before), pos, after, table.
      split; [done|]. split; [by constructor|done].
  - right. by exists [], p, todo, table.
Qed.

(** The two ways [find_font_bundle] ends. *)
Lemma find_font_bundle_accepted raw before pos after table w :
  occurrences raw = before ++ pos :: after →
  Forall (rejected zstd_decompress raw) before →
  decompresses_to zstd_decompress raw pos table →
  find_font_bundle zstd_decompress raw w =
  (Ok (pos, table, limit_at raw (occurrences raw) pos),
   logged w (attempts raw (before ++ [pos]))).
Proof.
  intros Hsplit Hbefore Hpos. unfold find_font_bundle.
  rewrite scan_occurrences. unfold mbind, M_bind.
  rewrite Hsplit at 2.
  by rewrite (try_positions_accepted _ _ _ _ _ table).
Qed.

Lemma find_font_bundle_rejected raw w :
  Forall (rejected zstd_decompress raw) (occurrences raw) →
  find_font_bundle zstd_decompress raw w =
  (Err (SystemExit 1),
   World (fs w) (stdout w ++ [not_found_message])
         (zstd_calls w ++ attempts raw (occurrences raw))).
Proof.
  intros Hall. unfold find_font_bundle.
  rewrite scan_occurrences. unfold mbind, M_bind.
  by rewrite try_positions_rejected.
Qed.

Lemma find_font_bundle_cases raw w :
  (∃ before pos after table,
     occurrences raw = before ++ pos :: after ∧
     Forall (rejected zstd_decompress raw) before ∧ decompresses_to zstd_decompress raw pos table ∧
     find_font_bundle zstd_decompress raw w =
     (Ok (pos, table, limit_at raw (occurrences raw) pos),
      logged w (attempts raw (before ++ [pos])))) ∨
  (Forall (rejected zstd_decompress raw) (occurrences raw) ∧
   find_font_bundle zstd_decompress raw w =
   (Err (SystemExit 1),
    World (fs w) (stdout w ++ [not_found_message])
          (zstd_calls w ++ attempts raw (occurrences raw)))).
Proof.
  destruct (first_valid raw (occurrences raw))
    as [Hall|(before & pos & after & table & Hsplit & Hall & Hpos)].
  - right. split; [done|]. by apply find_font_bundle_rejected.
  - left. exists before, pos, after, table.
    split; [done|]. split; [done|]. split; [done|].
    by eapply find_font_bundle_accepted.
Qed.

End Locator.

Lemma filter_all {A} (P : A → Prop) `{!∀ x, Decision (P x)} (l : list A) :
  Forall P l → filter P l = l.
Proof.
  induction 1 as [|x l Hx _ IH]; [done|].
  by rewrite filter_cons_True, IH.
Qed.

(** An ascending list splits around any of its elements. *)
Lemma ascending_split (l : list Z) x :
  StronglySorted Z.lt l → x ∈ l →
  l = filter (λ y, y < x) l ++ x :: filter (λ y, y > x) l.
Proof.
  induction 1 as [|a l Hl IH Ha]; intros Hx; [by apply elem_of_nil in Hx|].
  apply elem_of_cons in Hx as [->|Hx].
  - rewrite !filter_cons_False by lia.
    rewrite (filter_none (λ y, y < a)); cycle 1.
    { intros y Hy. eapply Forall_forall in Ha; [|done]. lia. }
    rewrite (filter_all (λ y, y > a)); [done|].
    eapply Forall_impl; [done|]. simpl. lia.
  - assert (a < x) by (by eapply Forall_forall in Ha).
    rewrite filter_cons_True by done.
    rewrite (filter_cons_False (λ y, y > x)) by lia.
    simpl. f_equal. by apply IH.
Qed.

Section LocatorProperties.

Variable zstd_decompress : bytes → Z → option bytes.

(** The candidate accepted is the first occurrence that validates. *)
Lemma find_font_bundle_first_valid raw O table w :
  occurs raw O →
  decompresses_to zstd_decompress raw O table →
  (∀ i, occurs raw i → i < O → rejected zstd_decompress raw i) →
  find_font_bundle zstd_decompress raw w =
  (Ok (O, table, limit_at raw (occurrences raw) O),
   logged w (attempts raw (filter (λ i, i < O) (occurrences raw) ++ [O]))).
Proof.
  intros Hocc Hvalid Hbefore.
  eapply find_font_bundle_accepted; [|  |done].
  - apply ascending_split; [apply occurrences_ascending|].
    by apply elem_of_occurrences.
  - apply Forall_forall. intros i [Hi Hin]%list_elem_of_filter.
    apply Hbefore; [|done]. by apply elem_of_occurrences.
Qed.

(** What a successful return of the locator tells. *)
Lemma find_font_bundle_ok_inv raw w O table limit w' :
  find_font_bundle zstd_decompress raw w = (Ok (O, table, limit), w') →
  ∃ before after,
    occurrences raw = before ++ O :: after ∧
    Forall (rejected zstd_decompress raw) before ∧
    decompresses_to zstd_decompress raw O table ∧
    limit = limit_at raw (occurrences raw) O ∧
    w' = logged w (attempts raw (before ++ [O])).
Proof.
  intros Hrun.
  destruct (find_font_bundle_cases zstd_decompress raw w)
    as [(before & pos & after & t & Hsplit & Hall & Hpos & Heq)|[_ Heq]];
    rewrite Heq in Hrun; [|done].
  injection Hrun as -> -> <- <-. by exists before, after.
Qed.

Lemma find_font_bundle_ok_occurs raw w O table limit w' :
  find_font_bundle zstd_decompress raw w = (Ok (O, table, limit), w') → occurs raw O.
Proof.
  intros (before & after & Hsplit & _)%find_font_bundle_ok_inv.
  apply elem_of_occurrences. rewrite Hsplit.
  apply elem_of_app. right. left.
Qed.

(** A candidate that is accepted is the first that validates. *)
Lemma find_font_bundle_ok_first raw w O table limit w' :
  find_font_bundle zstd_decompress raw w = (Ok (O, table, limit), w') →
  ∀ i, occurs raw i → i < O → rejected zstd_decompress raw i.
Proof.
  intros (before & after & Hsplit & Hbefore & _)%find_font_bundle_ok_inv
    i Hi%elem_of_occurrences Hlt.
  pose proof (occurrences_ascending raw) as Hsorted.
  rewrite Hsplit in Hi, Hsorted.
  apply elem_of_app in Hi as [Hi|Hi].
  { by eapply Forall_forall in Hbefore. }
  apply StronglySorted_app_1_r, StronglySorted_inv in Hsorted as [_ Hafter].
  apply elem_of_cons in Hi as [->|Hi]; [lia|].
  eapply Forall_forall in Hafter; [|done]. lia.
Qed.

(** C1 (exact-size disambiguation).  When exactly one occurrence of the
    magic in [raw] validates, that is, the decompression attempted on the
    slice starting there gives exactly [EXPECTED_SIZE] bytes, the locator
    returns its offset [O] and the table decompressed there, whatever
    other occurrences (decoys that decompress to another size or fail to
    decompress) lie before or after it.  The candidates are the
    occurrences of the magic in ascending order, overlapping ones
    included; those below [O] are attempted in that order, then [O]
    itself, which is accepted, and none after it.  Whatever the buffer, a
    candidate the locator accepts is the first occurrence that validates. *)
Theorem locate_returns_the_valid_occurrence raw O table w :
  occurs raw O →
  decompresses_to zstd_decompress raw O table →
  (∀ i t, occurs raw i → decompresses_to zstd_decompress raw i t → i = O) →
  scan (S (length raw)) raw 0 [] = Some (occurrences raw) ∧
  find_font_bundle zstd_decompress raw w =
  (Ok (O, table, limit_at raw (occurrences raw) O),
   logged w (attempts raw (filter (λ i, i < O) (occurrences raw) ++ [O]))) ∧
  ∀ raw0 w0 O0 table0 limit0 w0',
    find_font_bundle zstd_decompress raw0 w0 = (Ok (O0, table0, limit0), w0') →
    occurs raw0 O0 ∧ decompresses_to zstd_decompress raw0 O0 table0 ∧
    ∀ i, occurs raw0 i → i < O0 → rejected zstd_decompress raw0 i.
Proof.
  intros Hocc Hvalid Hunique. split; [apply scan_occurrences|]. split.
  - apply find_font_bundle_first_valid; [done..|].
    intros i Hi Hlt t Ht. specialize (Hunique i t Hi Ht). lia.
  - intros raw0 w0 O0 table0 limit0 w0' Hrun. split; [|split].
    + by eapply find_font_bundle_ok_occurs.
    + by apply find_font_bundle_ok_inv in Hrun as (? & ? & _ & _ & ? & _).
    + by eapply find_font_bundle_ok_first.
Qed.

(** C4 (budget computation).  When the locator accepts a bundle at offset
    [O], the budget it returns is [O2 - O] for the smallest offset
    [O2 > O] where the magic occurs again, and [len raw - O] when the
    magic occurs nowhere after [O]. *)
Theorem locate_budget raw w O table limit w' :
  find_font_bundle zstd_decompress raw w = (Ok (O, table, limit), w') →
  (∀ O2, occurs raw O2 → O < O2 →
         (∀ j, occurs raw j → O < j → O2 ≤ j) → limit = O2 - O) ∧
  ((∀ j, occurs raw j → ¬ O < j) → limit = len raw - O).
Proof.
  intros (before & after & _ & _ & _ & -> & _)%find_font_bundle_ok_inv.
  split.
  - intros O2 Hocc Hlt Hleast. by apply limit_at_next.
  - apply limit_at_last.
Qed.

(** C6 (table invariant).  A table the locator returns has exactly
    2,097,152 bytes, and on a buffer where no occurrence of the magic
    validates the locator prints its message and exits with code 1,
    leaving the files as they are. *)
Theorem locate_table_size_or_not_found raw w :
  (∀ O table limit w',
     find_font_bundle zstd_decompress raw w = (Ok (O, table, limit), w') →
     len table = 2097152) ∧
  ((∀ i table, occurs raw i → ¬ decompresses_to zstd_decompress raw i table) →
   ∃ w', find_font_bundle zstd_decompress raw w = (Err (SystemExit 1), w') ∧
         fs w' = fs w ∧
         stdout w' = stdout w ++ ["[FONT] No valid font bundle found in NRO."]).
Proof.
  split.
  - intros O table limit w'
      (before & after & _ & _ & [_ Hlen] & _)%find_font_bundle_ok_inv.
    rewrite Hlen, EXPECTED_SIZE_eq. done.
  - intros Hnone. eexists. split.
    + apply find_font_bundle_rejected. apply Forall_forall.
      intros i Hi%elem_of_occurrences table. by apply Hnone.
    + done.
Qed.

(** C8, as the code has it.  Each decompression the locator attempts is
    given the slice of the buffer that starts at the candidate and the
    output cap [EXPECTED_SIZE] (not [EXPECTED_SIZE + 1]); the attempts
    follow the occurrences of the magic in ascending order, from the
    first one on, and stop at the candidate accepted. *)
Theorem locate_attempts_capped_at_expected_size raw w :
  ∃ tried,
    tried `prefix_of` occurrences raw ∧
    zstd_calls (find_font_bundle zstd_decompress raw w).2 =
    zstd_calls w ++
      ((λ pos, Zdecompress (slice_from raw pos) EXPECTED_SIZE) <$> tried).
Proof.
  destruct (find_font_bundle_cases zstd_decompress raw w)
    as [(before & pos & after & t & Hsplit & _ & _ & Heq)|[_ Heq]];
    rewrite Heq.
  - exists (before ++ [pos]). split; [|done].
    exists after. by rewrite Hsplit, <- app_assoc.
  - by exists (occurrences raw).
Qed.

End LocatorProperties.

(** * The glyph codec *)

Lemma testbit_shiftl_1 k n : 0 ≤ k → Z.testbit (Z.shiftl 1 k) n = (k =? n).
Proof.
  intros Hk. rewrite Z.shiftl_1_l. by apply Z.pow2_bits_eqb.
Qed.

(** The loop over the columns raises nothing on a row that ends by column
    15, and sets bit [15 - col] for each pixel that is on. *)
Lemma row_bits_spec row bit v :
  0 ≤ bit → bit + len row ≤ 16 → 0 ≤ v →
  ∃ v', row_bits row bit v = Ok v' ∧ 0 ≤ v' ∧
    ∀ n, 0 ≤ n →
      Z.testbit v' n =
      Z.testbit v n ||
      ((bit <=? 15 - n) && default false (row !! Z.to_nat (15 - n - bit))).
Proof.
  revert bit v. induction row as [|on row IH]; intros bit v Hbit Hlen Hv.
  - exists v. split; [done|]. split; [done|]. intros n Hn.
    rewrite lookup_nil. simpl. by rewrite andb_false_r, orb_false_r.
  - unfold len in Hlen. simpl length in Hlen.
    assert (∃ v1, (if on then m ← lshift 1 (15 - bit); Ok (Z.lor v m) else Ok v)
                  = Ok v1 ∧ 0 ≤ v1 ∧
                  ∀ n, 0 ≤ n → Z.testbit v1 n
                               = Z.testbit v n || (on && (15 - bit =? n)))
      as (v1 & Hv1 & Hv1pos & Hv1bits).
    { destruct on.
      - exists (Z.lor v (Z.shiftl 1 (15 - bit))). unfold lshift.
        destruct (Z.ltb_spec (15 - bit) 0); [lia|]. split; [done|]. split.
        + apply Z.lor_nonneg. split; [done|]. apply Z.shiftl_nonneg. lia.
        + intros n Hn. rewrite Z.lor_spec, testbit_shiftl_1 by lia. done.
      - exists v. split; [done|]. split; [done|]. intros n Hn.
        simpl. by rewrite orb_false_r. }
    destruct (IH (bit + 1) v1) as (v' & Hv' & Hv'pos & Hv'bits);
      [lia|unfold len; lia|done|].
    exists v'. split.
    { simpl row_bits. rewrite Hv1. done. }
    split; [done|]. intros n Hn.
    rewrite Hv'bits, Hv1bits by done. rewrite <- orb_assoc. f_equal.
    destruct (Z.eqb_spec (15 - bit) n) as [Heq|Hne].
    + replace (Z.to_nat (15 - n - bit)) with 0%nat by lia.
      destruct (Z.leb_spec bit (15 - n)); [|lia].
      destruct (Z.leb_spec (bit + 1) (15 - n)); [lia|].
      simpl. by rewrite andb_true_r, orb_false_r.
    + rewrite andb_false_r. simpl.
      destruct (Z.leb_spec (bit + 1) (15 - n)).
      * destruct (Z.leb_spec bit (15 - n)); [|lia]. simpl.
        replace (Z.to_nat (15 - n - bit)) with (S (Z.to_nat (15 - n - (bit + 1))))
          by lia.
        done.
      * destruct (Z.leb_spec bit (15 - n)); [lia|done].
Qed.

Lemma bits_above_bound v k :
  0 ≤ v → 0 ≤ k → (∀ n, k ≤ n → Z.testbit v n = false) → v < 2 ^ k.
Proof.
  intros Hv Hk Hbits.
  destruct (decide (v = 0)) as [->|Hne]; [by apply Z.pow_pos_nonneg|].
  apply Z.log2_lt_pow2; [lia|].
  destruct (decide (Z.log2 v < k)) as [|Hge]; [done|].
  pose proof (Z.bit_log2 v ltac:(lia)) as Htop.
  rewrite Hbits in Htop by lia. done.
Qed.

(** A row of 16 pixels has a row value, and the loop computes it. *)
Lemma row_bits_word row :
  length row = 16%nat → ∃ v, row_bits row 0 0 = Ok v ∧ row_word_of row v.
Proof.
  intros Hlen.
  destruct (row_bits_spec row 0 0) as (v & Hv & Hpos & Hbits);
    [done|unfold len; lia|done|].
  exists v. split; [done|]. split.
  - split; [done|]. apply bits_above_bound; [done..|].
    intros n Hn. rewrite Hbits, Z.bits_0 by lia.
    destruct (Z.leb_spec 0 (15 - n)); [lia|done].
  - intros col on Hcol.
    pose proof (lookup_lt_Some _ _ _ Hcol).
    rewrite Hbits, Z.bits_0 by lia.
    destruct (Z.leb_spec 0 (15 - (15 - Z.of_nat col))); [|lia]. simpl.
    replace (Z.to_nat (15 - (15 - Z.of_nat col) - 0)) with col by lia.
    by rewrite Hcol.
Qed.

(** The row value is determined by the pixels of the row. *)
Lemma row_word_of_unique row v1 v2 :
  length row = 16%nat → row_word_of row v1 → row_word_of row v2 → v1 = v2.
Proof.
  intros Hlen [Hb1 H1] [Hb2 H2]. apply Z.bits_inj'. intros n Hn.
  destruct (decide (n < 16)) as [Hlt|Hge].
  - destruct (lookup_lt_is_Some_2 row (Z.to_nat (15 - n)) ltac:(lia)) as [on Hon].
    pose proof (H1 _ _ Hon) as E1. pose proof (H2 _ _ Hon) as E2.
    replace (15 - Z.of_nat (Z.to_nat (15 - n))) with n in * by lia.
    congruence.
  - assert (2 ^ 16 ≤ 2 ^ n) by (apply Z.pow_le_mono_r; lia).
    rewrite !Z.bits_above_log2; try done; try lia.
    + destruct (decide (v2 = 0)) as [->|]; [simpl; lia|].
      assert (Z.log2 v2 < 16) by (apply Z.log2_lt_pow2; lia). lia.
    + destruct (decide (v1 = 0)) as [->|]; [simpl; lia|].
      assert (Z.log2 v1 < 16) by (apply Z.log2_lt_pow2; lia). lia.
Qed.

Lemma land_0xFF v : Z.land v 0xFF = v `mod` 256.
Proof. change 0xFF with (Z.ones 8). by rewrite Z.land_ones. Qed.

Lemma high_byte v :
  0 ≤ v < 2 ^ 16 → Z.land (Z.shiftr v 8) 0xFF = v `div` 256.
Proof.
  intros Hv. rewrite land_0xFF, Z.shiftr_div_pow2 by done.
  change (2 ^ 8) with 256. apply Z.mod_small.
  split; [apply Z.div_pos; lia|]. apply Z.div_lt_upper_bound; lia.
Qed.

Lemma length_glyph_bytes words :
  length (glyph_bytes words) = (2 * length words)%nat.
Proof.
  unfold glyph_bytes. induction words as [|v words IH]; [done|].
  rewrite fmap_cons. change (concat (word_bytes v :: (word_bytes <$> words)))
    with (word_bytes v ++ concat (word_bytes <$> words)).
  rewrite length_app, IH. simpl. lia.
Qed.

Lemma list_getitem_lookup {A} (l : list A) (i : nat) x :
  l !! i = Some x → list_getitem l (Z.of_nat i) = Ok x.
Proof.
  intros Hx. pose proof (lookup_lt_Some _ _ _ Hx). unfold list_getitem, len.
  destruct (Z.ltb_spec (Z.of_nat i) 0); [lia|].
  destruct (Z.leb_spec 0 (Z.of_nat i)); [|lia].
  destruct (Z.ltb_spec (Z.of_nat i) (Z.of_nat (length l))); [|lia].
  simpl. by rewrite Nat2Z.id, Hx.
Qed.

Lemma bytearray_setitem_ok (b : bytes) (i : nat) v :
  (i < length b)%nat → 0 ≤ v < 256 →
  bytearray_setitem b (Z.of_nat i) v = Ok (<[i := v]> b).
Proof.
  intros Hi Hv. unfold bytearray_setitem, len.
  destruct (Z.ltb_spec (Z.of_nat i) 0); [lia|].
  destruct (Z.leb_spec 0 (Z.of_nat i)); [|lia].
  destruct (Z.ltb_spec (Z.of_nat i) (Z.of_nat (length b))); [|lia].
  destruct (Z.leb_spec 0 v); [|lia].
  destruct (Z.ltb_spec v 256); [|lia].
  simpl. by rewrite Nat2Z.id.
Qed.

(** A store that succeeds changes one element, at an index within the
    bytearray. *)
Lemma bytearray_setitem_inv (b : bytes) i v b' :
  0 ≤ i → bytearray_setitem b i v = Ok b' →
  i < len b ∧ b' = <[Z.to_nat i := v]> b.
Proof.
  intros Hi. unfold bytearray_setitem.
  destruct (Z.ltb_spec i 0); [lia|].
  destruct (Z.leb_spec 0 i); [|lia].
  destruct (Z.ltb_spec i (len b)); [|done].
  simpl. destruct (_ && _); [|done]. by intros [= <-].
Qed.

(** One pass of the loop over the rows. *)
Lemma write_row_at off bitmap (pre : bytes) a b post (r : nat) row v :
  len pre = off + Z.of_nat r * 2 →
  bitmap !! r = Some row →
  row_bits row 0 0 = Ok v → 0 ≤ v < 2 ^ 16 →
  write_row off bitmap (pre ++ a :: b :: post) (Z.of_nat r) =
  Ok (pre ++ word_bytes v ++ post).
Proof.
  intros Hpre Hrow Hbits Hv. unfold write_row.
  rewrite (list_getitem_lookup _ _ _ Hrow). simpl mbind.
  unfold mbind at 1, result_bind. rewrite Hbits.
  unfold len in Hpre.
  replace (off + Z.of_nat r * 2) with (Z.of_nat (length pre)) by lia.
  unfold mbind, result_bind.
  rewrite bytearray_setitem_ok; cycle 1.
  { rewrite length_app. simpl. lia. }
  { rewrite land_0xFF. apply Z.mod_pos_bound. lia. }
  replace (Z.of_nat (length pre) + 1) with (Z.of_nat (S (length pre))) by lia.
  rewrite bytearray_setitem_ok; cycle 1.
  { rewrite length_insert, length_app. simpl. lia. }
  { rewrite high_byte by done.
    split; [apply Z.div_pos; lia|]. apply Z.div_lt_upper_bound; lia. }
  f_equal. rewrite high_byte by done. rewrite land_0xFF.
  rewrite !insert_app_r_alt by lia.
  replace (length pre - length pre)%nat with 0%nat by lia.
  replace (S (length pre) - length pre)%nat with 1%nat by lia.
  done.
Qed.

(** The loop over the rows still to be written: the bytes [junk] that stood
    in their place are replaced by the bytes of their row values. *)
Lemma write_rows_from off (done todo : list (list bool)) words
    (pre junk post : bytes) :
  len pre = off + len done * 2 →
  length junk = (2 * length todo)%nat →
  Forall2 (λ row v, row_bits row 0 0 = Ok v ∧ 0 ≤ v < 2 ^ 16) todo words →
  for_each (seqZ (len done) (len todo)) (pre ++ junk ++ post)
           (write_row off (done ++ todo))
  = Ok (pre ++ glyph_bytes words ++ post).
Proof.
  intros Hpre Hjunk Hwords. revert done pre junk Hpre Hjunk.
  induction Hwords as [|row v todo words [Hbits Hv] _ IH];
    intros done pre junk Hpre Hjunk.
  - destruct junk; [|done]. done.
  - destruct junk as [|a [|b junk]]; simpl in Hjunk; [lia..|].
    rewrite seqZ_cons by (unfold len; simpl; lia).
    simpl for_each. change (len done) with (Z.of_nat (length done)).
    rewrite (write_row_at off _ pre a b (junk ++ post) _ row v); try done.
    + unfold mbind, result_bind.
      replace (Z.succ (Z.of_nat (length done))) with (len (done ++ [row]))
        by (unfold len; rewrite length_app; simpl; lia).
      replace (Z.pred (len (row :: todo))) with (len todo)
        by (unfold len; simpl; lia).
      rewrite (cons_middle row done todo), (assoc_L (++) done).
      replace (pre ++ word_bytes v ++ junk ++ post)
        with ((pre ++ word_bytes v) ++ junk ++ post) by (by rewrite <- app_assoc).
      rewrite IH.
      * unfold glyph_bytes. simpl. by rewrite <- !app_assoc.
      * rewrite !len_app, Hpre. unfold len. simpl. lia.
      * lia.
    + rewrite lookup_app_r by lia. by rewrite Nat.sub_diag.
Qed.

(** Each row of a 16x16 bitmap has its row value. *)
Lemma grid16_words bitmap :
  Forall (λ row, length row = 16%nat) bitmap →
  ∃ words,
    Forall2 (λ row v, row_bits row 0 0 = Ok v ∧ 0 ≤ v < 2 ^ 16) bitmap words ∧
    Forall2 row_word_of bitmap words.
Proof.
  induction 1 as [|row bitmap Hrow _ (words & Hbits & Hwords)].
  - by exists [].
  - destruct (row_bits_word row Hrow) as (v & Hv & Hword).
    exists (v :: words). split; constructor; try done.
    split; [done|]. apply Hword.
Qed.

(** The glyph of a 16x16 bitmap takes the place of the 32 bytes from
    offset [off] on, and nothing else of the bundle changes. *)
Lemma write_glyph_spec off bitmap (bundle : bytes) :
  grid16 bitmap → 0 ≤ off → off + 32 ≤ len bundle →
  ∃ words,
    Forall2 row_word_of bitmap words ∧
    write_glyph off bitmap bundle =
    Ok (take (Z.to_nat off) bundle ++ glyph_bytes words
        ++ drop (Z.to_nat (off + 32)) bundle).
Proof.
  intros [Hrows Hcols] Hoff Hlen. unfold len in Hlen.
  destruct (grid16_words bitmap Hcols) as (words & Hbits & Hwords).
  exists words. split; [done|]. unfold write_glyph.
  pose proof (write_rows_from off [] bitmap words
                (take (Z.to_nat off) bundle)
                (take 32 (drop (Z.to_nat off) bundle))
                (drop (Z.to_nat (off + 32)) bundle)) as Hloop.
  simpl app in Hloop at 2.
  replace (take 32 (drop (Z.to_nat off) bundle) ++ drop (Z.to_nat (off + 32)) bundle)
    with (drop (Z.to_nat off) bundle) in Hloop; cycle 1.
  { replace (Z.to_nat (off + 32)) with (Z.to_nat off + 32)%nat by lia.
    by rewrite <- drop_drop, take_drop. }
  rewrite take_drop in Hloop.
  replace (seqZ (len []) (len bitmap)) with (range 0 GLYPH_H) in Hloop
    by (unfold len; rewrite Hrows; done).
  apply Hloop; [| |done].
  - unfold len. rewrite length_take. simpl. lia.
  - rewrite length_take, length_drop. lia.
Qed.

(** * Patching the table *)

Lemma same_outside_refl T b : same_outside T b b.
Proof. by split. Qed.

Lemma same_outside_trans T b1 b2 b3 :
  same_outside T b1 b2 → same_outside T b2 b3 → same_outside T b1 b3.
Proof.
  intros [Hl1 H1] [Hl2 H2]. split; [congruence|].
  intros i Hi. by rewrite H2, H1.
Qed.

Lemma same_outside_mono (T1 T2 : nat → Prop) b b' :
  (∀ i, T1 i → T2 i) → same_outside T1 b b' → same_outside T2 b b'.
Proof. intros Hsub [Hl H1]. split; [done|]. intros i Hi. apply H1. auto. Qed.

Lemma for_each_same_outside {A} (l : list A) body T (b b' : bytes) :
  (∀ x b1 b2, x ∈ l → body b1 x = Ok b2 → same_outside T b1 b2) →
  for_each l b body = Ok b' → same_outside T b b'.
Proof.
  revert b. induction l as [|x l IH]; intros b Hbody Hrun.
  - injection Hrun as <-. apply same_outside_refl.
  - simpl in Hrun. destruct (body b x) as [b1|] eqn:Hx; [|done].
    apply (same_outside_trans _ _ b1).
    + apply (Hbody x); [left|done].
    + apply IH; [|done]. intros y c1 c2 Hy. apply Hbody. by right.
Qed.

Lemma bytearray_setitem_same_outside (b : bytes) i v b' :
  0 ≤ i → bytearray_setitem b i v = Ok b' →
  same_outside (λ j, j = Z.to_nat i) b b'.
Proof.
  intros Hi [_ ->]%bytearray_setitem_inv; [|done]. split.
  - apply length_insert.
  - intros j Hj. by apply list_lookup_insert_ne.
Qed.

Lemma write_row_same_outside off bitmap (b : bytes) r b' :
  0 ≤ off → 0 ≤ r < 16 → write_row off bitmap b r = Ok b' →
  same_outside (λ i, off ≤ Z.of_nat i < off + 32) b b'.
Proof.
  intros Hoff Hr. unfold write_row.
  destruct (list_getitem bitmap r) as [row|]; [|done]. simpl.
  destruct (row_bits row 0 0) as [v|]; [|done]. simpl.
  destruct (bytearray_setitem b _ _) as [b1|] eqn:H1; [|done]. simpl.
  intros H2.
  apply bytearray_setitem_same_outside in H1; [|lia].
  apply bytearray_setitem_same_outside in H2; [|lia].
  apply (same_outside_trans _ _ b1);
    (eapply same_outside_mono; [|done]); simpl; intros i ->; lia.
Qed.

Lemma chr_inv cp ch : chr cp = Ok ch → ch = cp ∧ 0 ≤ cp < 0x110000.
Proof.
  unfold chr. destruct (Z.leb_spec 0 cp); [|done].
  destruct (Z.ltb_spec cp 0x110000); [|done]. simpl.
  intros [= <-]. lia.
Qed.

Section Codec.

Variable font : Type.
Variable render : font → Z → Z → Z → Z.

(** The rasterizer always yields 16 rows of 16 pixels, each the
    thresholded luminance of its place. *)
Lemma rasterize_char_grid16 ft ch : grid16 (rasterize_char render ft ch).
Proof.
  split.
  - unfold rasterize_char. by rewrite length_fmap.
  - apply Forall_fmap, Forall_forall. intros cy _. unfold compose.
    by rewrite length_fmap.
Qed.

Lemma rasterize_char_pixel ft ch (r col : nat) row on :
  rasterize_char render ft ch !! r = Some row → row !! col = Some on →
  on = (render ft ch (Z.of_nat col) (Z.of_nat r) >? 128).
Proof.
  unfold rasterize_char, range.
  intros (cy & -> & [-> _]%lookup_seqZ)%list_lookup_fmap_Some.
  intros (cx & -> & [-> _]%lookup_seqZ)%list_lookup_fmap_Some.
  by rewrite !Z.add_0_l.
Qed.

(** Patching a code point whose glyph lies within the bundle. *)
Lemma patch_glyph_spec ft (bundle : bytes) cp :
  0 ≤ cp < 0x110000 → cp * 32 + 32 ≤ len bundle →
  ∃ words,
    Forall2 row_word_of (rasterize_char render ft cp) words ∧
    patch_glyph render ft bundle cp =
    Ok (take (Z.to_nat (cp * 32)) bundle ++ glyph_bytes words
        ++ drop (Z.to_nat (cp * 32 + 32)) bundle).
Proof.
  intros Hcp Hlen. unfold patch_glyph, chr.
  destruct (Z.leb_spec 0 cp); [|lia].
  destruct (Z.ltb_spec cp 0x110000); [|lia]. simpl.
  apply write_glyph_spec; [apply rasterize_char_grid16|lia|done].
Qed.

Lemma patch_glyph_same_outside ft (b : bytes) cp b' :
  patch_glyph render ft b cp = Ok b' →
  same_outside (λ i, cp * 32 ≤ Z.of_nat i < cp * 32 + 32) b b'.
Proof.
  unfold patch_glyph.
  destruct (chr cp) as [ch|] eqn:Hch; [|done]. simpl.
  apply chr_inv in Hch as [-> Hcp]. unfold write_glyph.
  apply for_each_same_outside. intros r b1 b2 Hr.
  apply elem_of_seqZ in Hr.
  apply write_row_same_outside; [|done].
  change BYTES_PER_GLYPH with 32. lia.
Qed.

Lemma patch_ranges_same_outside ft ranges (b b' : bytes) :
  patch_ranges render ft ranges b = Ok b' →
  same_outside (in_patched_region ranges) b b'.
Proof.
  unfold patch_ranges.
  apply for_each_same_outside. intros [start stop] b1 b2 Hrange.
  apply for_each_same_outside. intros cp c1 c2 Hcp Hglyph.
  apply elem_of_seqZ in Hcp.
  apply patch_glyph_same_outside in Hglyph.
  eapply same_outside_mono; [|done]. simpl. intros i Hi.
  exists start, stop, cp. split; [done|]. split; [lia|done].
Qed.

(** Over a table of the expected size, patching ranges of code points of
    the Basic Multilingual Plane raises nothing. *)
Lemma patch_ranges_total ft ranges (b : bytes) :
  len b = EXPECTED_SIZE →
  Forall (λ '(start, stop), 0 ≤ start ∧ stop ≤ 0x10000) ranges →
  ∃ b', patch_ranges render ft ranges b = Ok b'.
Proof.
  intros Hlen Hranges. revert b Hlen.
  induction Hranges as [|[start stop] ranges [Hstart Hstop] _ IH];
    intros b Hlen; [by exists b|].
  assert (∀ cps b, len b = EXPECTED_SIZE →
            Forall (λ cp, 0 ≤ cp < 0x10000) cps →
            ∃ b', for_each cps b (patch_glyph render ft) = Ok b'
                  ∧ len b' = EXPECTED_SIZE) as Hloop.
  { clear. intros cps b Hlen Hcps. revert b Hlen.
    induction Hcps as [|cp cps Hcp _ IH]; intros b Hlen; [by exists b|].
    rewrite EXPECTED_SIZE_eq in Hlen.
    destruct (patch_glyph_spec ft b cp) as (words & _ & Hglyph); [lia..|].
    simpl for_each. rewrite Hglyph. apply IH.
    apply patch_glyph_same_outside in Hglyph as [Hl _].
    unfold len. rewrite Hl. by rewrite EXPECTED_SIZE_eq. }
  destruct (Hloop (range start stop) b Hlen) as (b1 & Hb1 & Hlen1).
  { apply Forall_forall. intros cp Hcp%elem_of_seqZ. lia. }
  unfold patch_ranges. simpl for_each.
  rewrite Hb1. by apply IH.
Qed.

End Codec.

(** ** Packing and unpacking a glyph *)

Lemma glyph_bytes_lookup words (r : nat) v :
  words !! r = Some v →
  glyph_bytes words !! (2 * r)%nat = Some (v `mod` 256) ∧
  glyph_bytes words !! (2 * r + 1)%nat = Some (v `div` 256).
Proof.
  revert r. induction words as [|w words IH]; intros r Hr; [done|].
  destruct r as [|r].
  - injection Hr as ->. done.
  - apply IH in Hr as [Hlo Hhi].
    replace (2 * S r)%nat with (S (S (2 * r))) by lia.
    replace (S (S (2 * r)) + 1)%nat with (S (S (2 * r + 1))) by lia.
    done.
Qed.

Lemma unpack_row row v :
  length row = 16%nat → row_word_of row v →
  (λ col, Z.testbit v (15 - col)) <$> range 0 GLYPH_W = row.
Proof.
  intros Hlen [_ Hbits]. apply list_eq. intros col.
  rewrite list_lookup_fmap. unfold range.
  destruct (decide (col < 16)%nat) as [Hcol|Hcol].
  - rewrite lookup_seqZ_lt by (change (GLYPH_W - 0) with 16; lia).
    destruct (lookup_lt_is_Some_2 row col ltac:(lia)) as [on Hon].
    rewrite Hon. simpl. f_equal. rewrite Z.add_0_l. by apply Hbits.
  - rewrite lookup_seqZ_ge by (change (GLYPH_W - 0) with 16; lia).
    by rewrite lookup_ge_None_2 by lia.
Qed.

Lemma unpack_glyph_bytes bitmap words :
  grid16 bitmap → Forall2 row_word_of bitmap words →
  unpack (glyph_bytes words) = bitmap.
Proof.
  intros [Hrows Hcols] Hwords. apply list_eq. intros r.
  unfold unpack. rewrite list_lookup_fmap. unfold range at 2.
  destruct (decide (r < 16)%nat) as [Hr|Hr].
  - rewrite lookup_seqZ_lt by (change (GLYPH_H - 0) with 16; lia).
    destruct (lookup_lt_is_Some_2 bitmap r ltac:(lia)) as [row Hrow].
    destruct (Forall2_lookup_l _ _ _ _ _ Hwords Hrow) as (v & Hv & Hword).
    destruct (glyph_bytes_lookup _ _ _ Hv) as [Hlo Hhi].
    rewrite Hrow. simpl. f_equal. rewrite Z.add_0_l.
    replace (Z.to_nat (Z.of_nat r * 2)) with (2 * r)%nat by lia.
    replace (Z.to_nat (Z.of_nat r * 2 + 1)) with (2 * r + 1)%nat by lia.
    rewrite (list_lookup_total_correct _ _ _ Hlo).
    rewrite (list_lookup_total_correct _ _ _ Hhi).
    replace (v `mod` 256 + 256 * v `div` 256) with v
      by (pose proof (Z.div_mod v 256); lia).
    apply unpack_row; [|done].
    eapply Forall_lookup_1 in Hcols; done.
  - rewrite lookup_seqZ_ge by (change (GLYPH_H - 0) with 16; lia).
    by rewrite lookup_ge_None_2 by lia.
Qed.

(** C2 (glyph encoding and table indexing).  For a 16x16 bitmap and a code
    point [c] of [0, 0x10000), patching [c] in a table of the expected size
    computes for each row the 16-bit value whose bit [15 - col] is the
    pixel of column [col], emits its low byte and then its high byte, and
    stores the 32 bytes so obtained at [table[c*32 : c*32+32]]; the bitmap
    patched for [c] is the one the rasterizer gives for it. *)
Theorem patch_glyph_encoding (bitmap : list (list bool)) (table : bytes) c :
  grid16 bitmap → 0 ≤ c < 0x10000 → len table = EXPECTED_SIZE →
  ∃ words,
    Forall2 row_word_of bitmap words ∧
    length (glyph_bytes words) = 32%nat ∧
    write_glyph (c * BYTES_PER_GLYPH) bitmap table =
      Ok (take (Z.to_nat (c * 32)) table ++ glyph_bytes words
          ++ drop (Z.to_nat (c * 32 + 32)) table) ∧
    ∀ (font : Type) (render : font → Z → Z → Z → Z) ft,
      rasterize_char render ft c = bitmap →
      patch_glyph render ft table c =
      Ok (take (Z.to_nat (c * 32)) table ++ glyph_bytes words
          ++ drop (Z.to_nat (c * 32 + 32)) table).
Proof.
  intros Hgrid Hc Hlen. rewrite EXPECTED_SIZE_eq in Hlen.
  destruct (write_glyph_spec (c * 32) bitmap table) as (words & Hwords & Hrun);
    [done|lia..|].
  exists words. split; [done|]. split.
  { rewrite length_glyph_bytes. destruct Hgrid as [Hrows _].
    apply Forall2_length in Hwords. lia. }
  split; [done|].
  intros font render ft <-. unfold patch_glyph, chr.
  destruct (Z.leb_spec 0 c); [|lia].
  destruct (Z.ltb_spec c 0x110000); [|lia]. done.
Qed.

(** C3 (round trip).  The script has no decoder; against [unpack] as the
    specification describes it, packing a 16x16 bitmap gives 32 bytes from
    which [unpack] reads the bitmap back. *)
Theorem unpack_pack (bitmap : list (list bool)) :
  grid16 bitmap →
  ∃ glyph, pack bitmap = Ok glyph ∧ length glyph = 32%nat ∧
           unpack glyph = bitmap.
Proof.
  intros Hgrid.
  destruct (write_glyph_spec 0 bitmap (replicate 32 0)) as (words & Hwords & Hrun);
    [done..|].
  exists (glyph_bytes words). split; [|split].
  - unfold pack. rewrite Hrun. simpl. by rewrite app_nil_r.
  - rewrite length_glyph_bytes. destruct Hgrid as [Hrows _].
    apply Forall2_length in Hwords. lia.
  - by apply unpack_glyph_bytes.
Qed.

(** C7 (frame of the patch).  Patching the ranges selected for a language
    leaves the table at its length and changes no byte outside the 32-byte
    glyph regions of the code points of those half-open ranges; for the
    range [0xAC00, 0xD7A4) every byte from [table[0xD7A4*32]] on keeps its
    value. *)
Theorem patch_modifies_only_selected_glyphs
    (font : Type) (render : font → Z → Z → Z → Z) ft
    (ranges : list (Z * Z)) (table table' : bytes) :
  patch_ranges render ft ranges table = Ok table' →
  length table' = length table ∧
  (∀ i : nat,
     (∀ start stop cp, (start, stop) ∈ ranges → start ≤ cp < stop →
                       ¬ (cp * 32 ≤ Z.of_nat i < cp * 32 + 32)) →
     table' !! i = table !! i) ∧
  (ranges = [(0xAC00, 0xD7A4)] →
   ∀ i : nat, 0xD7A4 * 32 ≤ Z.of_nat i → table' !! i = table !! i).
Proof.
  intros [Hlen Hsame]%patch_ranges_same_outside.
  split; [done|]. split.
  - intros i Hi. apply Hsame.
    intros (start & stop & cp & Hin & Hcp & Hreg). by apply (Hi start stop cp).
  - intros -> i Hi. apply Hsame.
    intros (start & stop & cp & Hin & Hcp & Hreg).
    apply list_elem_of_singleton in Hin as [= -> ->]. lia.
Qed.

(** * Writing the bundle back *)

Lemma slice_bound_within n i : 0 ≤ i ≤ n → slice_bound n i = i.
Proof.
  intros Hi. unfold slice_bound. destruct (Z.ltb_spec i 0); lia.
Qed.

(** A splice that stays within the buffer. *)
Lemma setslice_within (b : bytes) lo (v : bytes) :
  0 ≤ lo → lo + len v ≤ len b →
  setslice b lo (lo + len v) v =
  take (Z.to_nat lo) b ++ v ++ drop (Z.to_nat lo + length v) b.
Proof.
  intros Hlo Hfit. pose proof (len_nonneg v). unfold setslice.
  rewrite !slice_bound_within by lia.
  rewrite Z.max_r by lia. unfold len.
  by replace (Z.to_nat (lo + Z.of_nat (length v)))
    with (Z.to_nat lo + length v)%nat by lia.
Qed.

Lemma setslice_length (b : bytes) lo (v : bytes) :
  0 ≤ lo → lo + len v ≤ len b →
  length (setslice b lo (lo + len v) v) = length b.
Proof.
  intros Hlo Hfit. rewrite setslice_within by done. unfold len in Hfit.
  rewrite !length_app, length_take, length_drop. lia.
Qed.

Lemma setslice_lookup_inside (b : bytes) lo (v : bytes) (j : nat) :
  0 ≤ lo → lo + len v ≤ len b → (j < length v)%nat →
  setslice b lo (lo + len v) v !! (Z.to_nat lo + j)%nat = v !! j.
Proof.
  intros Hlo Hfit Hj. rewrite setslice_within by done. unfold len in Hfit.
  rewrite lookup_app_r by (rewrite length_take; lia).
  rewrite length_take, lookup_app_l by lia.
  f_equal. lia.
Qed.

Lemma setslice_lookup_outside (b : bytes) lo (v : bytes) (i : nat) :
  0 ≤ lo → lo + len v ≤ len b →
  ¬ (lo ≤ Z.of_nat i < lo + len v) →
  setslice b lo (lo + len v) v !! i = b !! i.
Proof.
  intros Hlo Hfit Hi. rewrite setslice_within by done. unfold len in *.
  destruct (decide (Z.of_nat i < lo)) as [Hbelow|Habove].
  - rewrite lookup_app_l by (rewrite length_take; lia).
    apply lookup_take_lt. lia.
  - rewrite lookup_app_r by (rewrite length_take; lia).
    rewrite length_take, lookup_app_r by lia.
    rewrite lookup_drop. f_equal. lia.
Qed.

Lemma list_getitem_inv {A} (l : list A) i x :
  0 ≤ i → list_getitem l i = Ok x → l !! Z.to_nat i = Some x.
Proof.
  intros Hi. unfold list_getitem. destruct (Z.ltb_spec i 0); [lia|].
  destruct (_ && _); [|done]. by destruct (l !! Z.to_nat i); intros [= ->].
Qed.

Section Runs.

Variable zstd_decompress : bytes → Z → option bytes.
Variable zstd_compress : Z → bytes → bytes.
Variable font : Type.
Variable truetype : string → Z → font.
Variable render : font → Z → Z → Z → Z.
Variable font_files : list string.
Variable config_txt : config_read.

Lemma find_font_bundle_fs raw w r w' :
  find_font_bundle zstd_decompress raw w = (r, w') → fs w' = fs w.
Proof.
  destruct (find_font_bundle_cases zstd_decompress raw w)
    as [(before & pos & after & t & _ & _ & _ & ->)|[_ ->]];
    by intros [= _ <-].
Qed.

Lemma write_back_too_large nro_path raw offset limit (table : bytes) w :
  len (zstd_compress 22 table) > limit →
  write_back zstd_compress nro_path raw offset limit table w =
  (Err (SystemExit 1),
   World (fs w) (stdout w ++ [too_large_message])
         (zstd_calls w ++ [Zcompress 22 table])).
Proof.
  intros Hlarge. unfold write_back, mbind, M_bind, compress.
  destruct (Z.gtb_spec (len (zstd_compress 22 table)) limit); [done|lia].
Qed.

Lemma write_back_fits nro_path raw offset limit (table : bytes) w :
  len (zstd_compress 22 table) ≤ limit →
  write_back zstd_compress nro_path raw offset limit table w =
  (Ok tt,
   World (<[nro_path :=
              setslice raw offset
                (offset + len (zstd_compress 22 table))
                (zstd_compress 22 table)]> (fs w))
         (stdout w ++ [complete_message])
         (zstd_calls w ++ [Zcompress 22 table])).
Proof.
  intros Hfits. unfold write_back, mbind, M_bind, compress.
  destruct (Z.gtb_spec (len (zstd_compress 22 table)) limit); [lia|done].
Qed.

Lemma bind_inv {A B} (m : M A) (f : A → M B) w r w' :
  (m ≫= f) w = (r, w') →
  (∃ a w1, m w = (Ok a, w1) ∧ f a w1 = (r, w')) ∨
  (∃ e, m w = (Err e, w') ∧ r = Err e).
Proof.
  unfold mbind, M_bind. destruct (m w) as [[a|e] w1].
  - intros Hf. left. by exists a, w1.
  - intros [= <- <-]. right. by exists e.
Qed.

Lemma print_then {A} line (k : M A) w :
  (print line;; k) w
  = k (World (fs w) (stdout w ++ [line]) (zstd_calls w)).
Proof. done. Qed.

Lemma load_config_inv w r w1 :
  load_config config_txt w = (r, w1) →
  r = Ok (Cfg (read_font_num config_txt)) ∧ fs w1 = fs w.
Proof.
  unfold load_config. destruct (read_failed config_txt); [|by intros [= <- <-]].
  rewrite print_then. by intros [= <- <-].
Qed.

Lemma pick_font_inv w r w1 :
  pick_font font_files w = (r, w1) →
  fs w1 = fs w ∧ ∀ f, r = Ok f → head font_files = Some f.
Proof.
  unfold pick_font. destruct font_files as [|f rest].
  - rewrite print_then. by intros [= <- <-].
  - intros [= <- <-]. split; [done|]. by intros f' [= ->].
Qed.

Lemma read_bytes_inv path w r w1 :
  read_bytes path w = (r, w1) →
  w1 = w ∧ ∀ b, r = Ok b → fs w !! path = Some b.
Proof.
  unfold read_bytes. destruct (fs w !! path) as [b|].
  - intros [= <- <-]. split; [done|]. by intros b' [= ->].
  - by intros [= <- <-].
Qed.

(** A run of [main] either ends early, with the files as they were, or
    reaches the write-back with the patched bundle. *)
Lemma main_inv argv w r w' :
  main zstd_decompress zstd_compress truetype render font_files config_txt
       argv w = (r, w') →
  (∃ e, r = Err e ∧ fs w' = fs w) ∨
  ∃ lang nro_path lang_ranges raw offset bundle limit w1 w2 font_path
    bundle' w3,
    argv !! 1%nat = Some lang ∧ argv !! 2%nat = Some nro_path ∧
    FONT_RANGES !! lang = Some lang_ranges ∧
    fs w !! nro_path = Some raw ∧ fs w1 = fs w ∧
    find_font_bundle zstd_decompress raw w1
      = (Ok (offset, bundle, limit), w2) ∧
    head font_files = Some font_path ∧
    patch_ranges render (truetype font_path 16)
                 (selected_ranges config_txt lang_ranges) bundle = Ok bundle' ∧
    fs w3 = fs w ∧
    write_back zstd_compress nro_path raw offset limit bundle' w3 = (r, w').
Proof.
  unfold main. destruct (len argv <? 3).
  { rewrite print_then. intros [= <- <-]. left. by eexists. }
  intros Hrun.
  apply bind_inv in Hrun as [(lang & w0 & Hlang & Hrun)|(e & [= _ <-] & ->)];
    [|left; by eexists].
  injection Hlang as Hlang <-. apply list_getitem_inv in Hlang; [|done].
  apply bind_inv in Hrun as [(path & w0 & Hpath & Hrun)|(e & [= _ <-] & ->)];
    [|left; by eexists].
  injection Hpath as Hpath <-. apply list_getitem_inv in Hpath; [|done].
  apply bind_inv in Hrun
    as [(cfg & w1 & [[= ->] Hfs1]%load_config_inv & Hrun)
       |(e & [_ Hfs]%load_config_inv & ->)];
    [|left; by eexists].
  destruct (FONT_RANGES !! lang) as [lang_ranges|] eqn:Hranges; cycle 1.
  { rewrite print_then in Hrun. injection Hrun as <- <-. left. by eexists. }
  apply bind_inv in Hrun
    as [(raw & w1' & [-> Hraw]%read_bytes_inv & Hrun)
       |(e & [-> _]%read_bytes_inv & ->)];
    [|left; by eexists].
  specialize (Hraw raw eq_refl). rewrite Hfs1 in Hraw.
  apply bind_inv in Hrun
    as [([[offset bundle] limit] & w2 & Hfound & Hrun)
       |(e & Hfs%find_font_bundle_fs & ->)];
    [|left; eexists; split; [done|congruence]].
  pose proof (find_font_bundle_fs _ _ _ _ Hfound) as Hfs2.
  rewrite !print_then in Hrun.
  apply bind_inv in Hrun as [(ranges & w3 & Hsel & Hrun)|(e & Hsel & ->)];
    cycle 1.
  { exfalso. simpl in Hsel. destruct (read_font_num config_txt); [|done].
    by rewrite print_then in Hsel. }
  assert (ranges = selected_ranges config_txt lang_ranges ∧ fs w3 = fs w) as [-> Hfs3].
  { unfold selected_ranges. simpl in Hsel.
    destruct (read_font_num config_txt).
    - rewrite print_then in Hsel. injection Hsel as <- <-.
      simpl. split; [done|congruence].
    - injection Hsel as <- <-. simpl. split; [done|congruence]. }
  apply bind_inv in Hrun
    as [(font_path & w4 & [Hfs4 Hfont]%pick_font_inv & Hrun)
       |(e & [Hfs4 _]%pick_font_inv & ->)];
    [|left; eexists; split; [done|congruence]].
  specialize (Hfont font_path eq_refl).
  apply bind_inv in Hrun as [(bundle' & w5 & Hpatch & Hrun)|(e & [= _ <-] & ->)];
    [|left; eexists; split; [done|congruence]].
  injection Hpatch as Hpatch <-.
  right. exists lang, path, lang_ranges, raw, offset, bundle, limit, w1, w2,
           font_path, bundle', w4.
  repeat (split; [done || congruence|]). done.
Qed.

Lemma write_back_inv nro_path raw offset limit (table : bytes) w r w' :
  write_back zstd_compress nro_path raw offset limit table w = (r, w') →
  (r = Err (SystemExit 1) ∧ fs w' = fs w ∧
   len (zstd_compress 22 table) > limit) ∨
  (r = Ok tt ∧
   len (zstd_compress 22 table) ≤ limit ∧
   fs w' = <[nro_path :=
               setslice raw offset
                 (offset + len (zstd_compress 22 table))
                 (zstd_compress 22 table)]> (fs w)).
Proof.
  destruct (decide (len (zstd_compress 22 table) > limit)) as [Hlarge|Hfits].
  - rewrite write_back_too_large by done. intros [= <- <-]. by left.
  - rewrite write_back_fits by lia. intros [= <- <-]. right.
    split; [done|]. split; [lia|done].
Qed.

Lemma bind_ok {A B} (m : M A) (f : A → M B) w a w1 :
  m w = (Ok a, w1) → (m ≫= f) w = f a w1.
Proof. intros Hm. unfold mbind, M_bind. by rewrite Hm. Qed.

(** A run of [main] whose stages all succeed reaches the write-back. *)
Lemma main_reaches_write_back argv w lang nro_path lang_ranges raw
    offset bundle limit calls font_path rest bundle' :
  argv !! 1%nat = Some lang → argv !! 2%nat = Some nro_path →
  FONT_RANGES !! lang = Some lang_ranges →
  fs w !! nro_path = Some raw →
  (∀ w1, find_font_bundle zstd_decompress raw w1
         = (Ok (offset, bundle, limit), logged w1 calls)) →
  font_files = font_path :: rest →
  patch_ranges render (truetype font_path 16)
               (selected_ranges config_txt lang_ranges) bundle = Ok bundle' →
  ∃ w3, fs w3 = fs w ∧
    main zstd_decompress zstd_compress truetype render font_files config_txt
         argv w
    = write_back zstd_compress nro_path raw offset limit bundle' w3.
Proof.
  intros Hlang Hpath Hranges Hraw Hfound Hfonts Hpatch. unfold main.
  pose proof (lookup_lt_Some _ _ _ Hpath) as Hargc.
  destruct (Z.ltb_spec (len argv) 3) as [Hlt|_]; [unfold len in Hlt; lia|].
  rewrite (bind_ok _ _ _ lang w); cycle 1.
  { unfold lift. by rewrite (list_getitem_lookup argv 1 lang Hlang : list_getitem argv 1 = _). }
  rewrite (bind_ok _ _ _ nro_path w); cycle 1.
  { unfold lift. by rewrite (list_getitem_lookup argv 2 nro_path Hpath : list_getitem argv 2 = _). }
  destruct (load_config config_txt w) as [rc wc] eqn:Hcfg.
  pose proof (load_config_inv _ _ _ Hcfg) as [-> Hfsc].
  rewrite (bind_ok _ _ _ _ _ Hcfg). rewrite Hranges.
  rewrite (bind_ok _ _ _ raw wc); cycle 1.
  { unfold read_bytes. by rewrite Hfsc, Hraw. }
  rewrite (bind_ok _ _ _ _ _ (Hfound wc)). rewrite !print_then.
  unfold selected_ranges in Hpatch. simpl font_num.
  subst font_files.
  destruct (read_font_num config_txt);
    cbv beta iota delta [mbind M_bind mret M_ret print pick_font lift];
    rewrite Hpatch; (eexists; split; [|reflexivity]); simpl; done.
Qed.

End Runs.

(** * Properties of the write-back *)

Section WriteBackProperties.

Variable zstd_decompress : bytes → Z → option bytes.
Variable zstd_compress : Z → bytes → bytes.

(** The locator's offset and budget delimit a region of the buffer. *)
Lemma find_font_bundle_region raw w offset table limit w' :
  find_font_bundle zstd_decompress raw w = (Ok (offset, table, limit), w') →
  0 ≤ offset ∧ 0 < limit ∧ offset + limit ≤ len raw.
Proof.
  intros Hrun.
  pose proof (find_font_bundle_ok_occurs _ _ _ _ _ _ _ Hrun) as Hocc.
  apply find_font_bundle_ok_inv in Hrun as (_ & _ & _ & _ & _ & -> & _).
  pose proof (limit_at_bounds raw offset Hocc).
  apply occurs_bounds in Hocc. lia.
Qed.

(** C5 (size ceiling).  When the compressed form of the edited table is
    longer than the budget, the write-back prints its error and exits with
    code 1; the buffer is not spliced and no file is written.  More
    generally a run of the script that ends in an exit or an exception, at
    whatever stage, leaves every file as it was. *)
Theorem too_large_bundle_is_fatal_and_writes_nothing
    nro_path (raw : bytes) offset limit (table : bytes) w :
  len (zstd_compress 22 table) > limit →
  write_back zstd_compress nro_path raw offset limit table w =
  (Err (SystemExit 1),
   World (fs w) (stdout w ++ ["[ERROR] Compressed bundle too large!!"])
         (zstd_calls w ++ [Zcompress 22 table])) ∧
  ∀ (font : Type) (truetype : string → Z → font) render font_files config_txt
    argv w0 e w',
    main zstd_decompress zstd_compress truetype render font_files config_txt
         argv w0 = (Err e, w') →
    fs w' = fs w0.
Proof.
  intros Hlarge. split; [by apply write_back_too_large|].
  intros font truetype render font_files config_txt argv w0 e w' Hrun.
  apply main_inv in Hrun
    as [(e' & _ & Hfs)
       |(lang & path & rs & raw' & off & b & lim & w1 & w2 & f & b' & w3
         & _ & _ & _ & _ & _ & _ & _ & _ & Hfs3 & Hback)]; [done|].
  apply write_back_inv in Hback as [(_ & Hfs & _)|([=] & _)]. congruence.
Qed.

(** C9 (splice).  When the recompressed stream fits the budget found by
    the locator (in particular when it is shorter), the file is written
    with the buffer in which the stream replaces exactly as many bytes as
    it has, from the accepted offset on: the buffer keeps its length, the
    bytes of the budgeted region after the stream keep the values they had
    in the input, and so does every byte outside the region. *)
Theorem splice_overwrites_only_the_stream
    nro_path (raw : bytes) w0 offset (table0 : bytes) limit w1
    (table : bytes) w :
  find_font_bundle zstd_decompress raw w0 = (Ok (offset, table0, limit), w1) →
  len (zstd_compress 22 table) ≤ limit →
  ∃ raw' : bytes,
    write_back zstd_compress nro_path raw offset limit table w =
    (Ok tt,
     World (<[nro_path := raw']> (fs w))
           (stdout w ++ ["[FONT] Font patch complete."])
           (zstd_calls w ++ [Zcompress 22 table])) ∧
    length raw' = length raw ∧
    (∀ j : nat, (j < length (zstd_compress 22 table))%nat →
       raw' !! (Z.to_nat offset + j)%nat = zstd_compress 22 table !! j) ∧
    (∀ i : nat,
       offset + len (zstd_compress 22 table) ≤ Z.of_nat i < offset + limit →
       raw' !! i = raw !! i) ∧
    (∀ i : nat,
       ¬ (offset ≤ Z.of_nat i < offset + len (zstd_compress 22 table)) →
       raw' !! i = raw !! i).
Proof.
  intros (Hoff & Hlim & Hregion)%find_font_bundle_region Hfits.
  eexists. split; [by apply write_back_fits|].
  split; [apply setslice_length; lia|].
  split; [intros j Hj; apply setslice_lookup_inside; lia|].
  split; intros i Hi; apply setslice_lookup_outside; lia.
Qed.

(** C10 (the file keeps its length).  A run of the script that succeeds
    has written one file, the one named on the command line, and its new
    content has exactly the length of the content read: the stream spliced
    in is no longer than the budget, which ends within the buffer. *)
Theorem patched_file_keeps_its_length
    (font : Type) (truetype : string → Z → font) render font_files config_txt
    argv w w' :
  main zstd_decompress zstd_compress truetype render font_files config_txt
       argv w = (Ok tt, w') →
  ∃ nro_path (raw raw' comp : bytes) offset limit,
    argv !! 2%nat = Some nro_path ∧
    fs w !! nro_path = Some raw ∧
    len comp ≤ limit ∧ 0 ≤ offset ∧ offset + limit ≤ len raw ∧
    raw' = setslice raw offset (offset + len comp) comp ∧
    fs w' = <[nro_path := raw']> (fs w) ∧
    length raw' = length raw.
Proof.
  intros Hrun.
  apply main_inv in Hrun
    as [(e & [=] & _)
       |(lang & path & rs & raw & off & b & lim & w1 & w2 & f & b' & w3
         & _ & Hpath & _ & Hraw & _ & Hfound & _ & _ & Hfs3 & Hback)].
  apply write_back_inv in Hback as [([=] & _)|(_ & Hfits & Hfs)].
  apply find_font_bundle_region in Hfound as (Hoff & Hlim & Hregion).
  exists path, raw,
    (setslice raw off (off + len (zstd_compress 22 b')) (zstd_compress 22 b')),
    (zstd_compress 22 b'), off, lim.
  repeat (split; [done|]). split; [by rewrite Hfs, Hfs3|].
  apply setslice_length; lia.
Qed.

End WriteBackProperties.

(** C8 as stated does not hold: the cap the locator gives is
    [EXPECTED_SIZE], so an attempt is logged whose cap is not
    [EXPECTED_SIZE + 1]. *)
Lemma locate_cap_is_not_expected_size_plus_one :
  ¬ (∀ (zstd_decompress : bytes → Z → option bytes) raw w data cap,
       Zdecompress data cap
         ∈ zstd_calls (find_font_bundle zstd_decompress raw w).2 →
       Zdecompress data cap ∉ zstd_calls w →
       cap = EXPECTED_SIZE + 1).
Proof.
  intros Hcap.
  specialize (Hcap (λ _ _, None) MAGIC (World ∅ [] []) MAGIC EXPECTED_SIZE).
  assert (EXPECTED_SIZE = EXPECTED_SIZE + 1) as Habs; [|lia].
  apply Hcap.
  - vm_compute. left.
  - vm_compute. apply not_elem_of_nil.
Qed.

(** * The worked example: the locator *)

Lemma example_occurrences : occurrences example_buffer = [1; 6; 12; 19].
Proof. vm_compute. reflexivity. Qed.

Lemma example_table_len : len example_table = EXPECTED_SIZE.
Proof.
  unfold example_table, len. rewrite length_replicate. by apply Z2Nat.id.
Qed.

Lemma example_decompress_bundle cap :
  example_decompress (slice_from example_buffer 12) cap
  = Some (replicate (Z.to_nat cap) 0).
Proof. reflexivity. Qed.

Lemma example_bundle_valid :
  decompresses_to example_decompress example_buffer 12 example_table.
Proof.
  split; [apply example_decompress_bundle|apply example_table_len].
Qed.

Lemma example_decoys_rejected i :
  occurs example_buffer i → i ≠ 12 → rejected example_decompress example_buffer i.
Proof.
  intros Hi%elem_of_occurrences Hne table [Hdec Hlen].
  rewrite example_occurrences in Hi.
  repeat (apply elem_of_cons in Hi as [->|Hi]); try done.
  - vm_compute in Hdec. injection Hdec as <-. vm_compute in Hlen. done.
  - by apply elem_of_nil in Hi.
Qed.

Lemma example_locate w :
  find_font_bundle example_decompress example_buffer w =
  (Ok (12, example_table, limit_at example_buffer (occurrences example_buffer) 12),
   logged w (attempts example_buffer
               (filter (λ i, i < 12) (occurrences example_buffer) ++ [12]))).
Proof.
  apply find_font_bundle_first_valid.
  - apply elem_of_occurrences. rewrite example_occurrences.
    apply list_elem_of_In. simpl. tauto.
  - apply example_bundle_valid.
  - intros i Hi Hlt. apply example_decoys_rejected; [done|lia].
Qed.

(** ** The properties at the example *)

Lemma locate_returns_the_valid_occurrence_example :
  scan (S (length example_buffer)) example_buffer 0 []
    = Some (occurrences example_buffer) ∧
  find_font_bundle example_decompress example_buffer example_world =
  (Ok (12, example_table,
       limit_at example_buffer (occurrences example_buffer) 12),
   logged example_world
     (attempts example_buffer
        (filter (λ i, i < 12) (occurrences example_buffer) ++ [12]))) ∧
  ∀ raw0 w0 O0 table0 limit0 w0',
    find_font_bundle example_decompress raw0 w0
      = (Ok (O0, table0, limit0), w0') →
    occurs raw0 O0 ∧ decompresses_to example_decompress raw0 O0 table0 ∧
    ∀ i, occurs raw0 i → i < O0 → rejected example_decompress raw0 i.
Proof.
  apply (locate_returns_the_valid_occurrence
           example_decompress example_buffer 12 example_table example_world).
  - split; [lia|reflexivity].
  - split; [apply example_decompress_bundle|].
    unfold example_table, len. rewrite length_replicate. apply Z2Nat.id.
    vm_compute. discriminate.
  - intros i t Hi Ht. destruct (decide (i = 12)) as [|Hne]; [done|].
    destruct (example_decoys_rejected i Hi Hne t Ht).
Defined.

Lemma locate_budget_example :
  (∀ O2, occurs example_buffer O2 → 12 < O2 →
         (∀ j, occurs example_buffer j → 12 < j → O2 ≤ j) →
         limit_at example_buffer (occurrences example_buffer) 12 = O2 - 12) ∧
  ((∀ j, occurs example_buffer j → ¬ 12 < j) →
   limit_at example_buffer (occurrences example_buffer) 12
   = len example_buffer - 12).
Proof.
  apply (locate_budget example_decompress example_buffer example_world
           12 example_table _ _ (example_locate example_world)).
Defined.

Lemma locate_not_found_example :
  ∃ w', find_font_bundle example_decompress (MAGIC ++ [2] ++ MAGIC)
          example_world = (Err (SystemExit 1), w') ∧
        fs w' = fs example_world ∧
        stdout w' = stdout example_world
                    ++ ["[FONT] No valid font bundle found in NRO."].
Proof.
  apply (locate_table_size_or_not_found example_decompress).
  intros i table Hi%elem_of_occurrences [Hdec Hlen].
  vm_compute in Hi.
  repeat (apply elem_of_cons in Hi as [->|Hi]).
  - vm_compute in Hdec. injection Hdec as <-. vm_compute in Hlen. done.
  - vm_compute in Hdec. done.
  - by apply elem_of_nil in Hi.
Defined.

Lemma example_bitmap_grid16 : grid16 example_bitmap.
Proof. split; [reflexivity|]. vm_compute. repeat constructor. Qed.

Lemma patch_glyph_encoding_example :
  ∃ words,
    Forall2 row_word_of example_bitmap words ∧
    length (glyph_bytes words) = 32%nat ∧
    write_glyph (0xAC00 * BYTES_PER_GLYPH) example_bitmap example_table =
      Ok (take (Z.to_nat (0xAC00 * 32)) example_table ++ glyph_bytes words
          ++ drop (Z.to_nat (0xAC00 * 32 + 32)) example_table) ∧
    ∀ (font : Type) (render : font → Z → Z → Z → Z) ft,
      rasterize_char render ft 0xAC00 = example_bitmap →
      patch_glyph render ft example_table 0xAC00 =
      Ok (take (Z.to_nat (0xAC00 * 32)) example_table ++ glyph_bytes words
          ++ drop (Z.to_nat (0xAC00 * 32 + 32)) example_table).
Proof.
  apply (patch_glyph_encoding example_bitmap example_table 0xAC00).
  - split; [reflexivity|]. vm_compute. repeat constructor.
  - lia.
  - unfold example_table, len. rewrite length_replicate. apply Z2Nat.id.
    vm_compute. discriminate.
Defined.

Lemma unpack_pack_example :
  ∃ glyph, pack example_bitmap = Ok glyph ∧ length glyph = 32%nat ∧
           unpack glyph = example_bitmap.
Proof.
  apply (unpack_pack example_bitmap).
  split; [reflexivity|]. vm_compute. repeat constructor.
Defined.

Lemma patch_modifies_only_selected_glyphs_example :
  ∃ table' : bytes,
    patch_ranges example_render tt HANGUL_SYLLABLES example_table = Ok table' ∧
    length table' = length example_table ∧
    (∀ i : nat,
       (∀ start stop cp, (start, stop) ∈ HANGUL_SYLLABLES → start ≤ cp < stop →
                         ¬ (cp * 32 ≤ Z.of_nat i < cp * 32 + 32)) →
       table' !! i = example_table !! i) ∧
    (HANGUL_SYLLABLES = [(0xAC00, 0xD7A4)] →
     ∀ i : nat, 0xD7A4 * 32 ≤ Z.of_nat i → table' !! i = example_table !! i).
Proof.
  destruct (patch_ranges_total unit example_render tt HANGUL_SYLLABLES example_table)
    as [table' Hrun].
  - apply example_table_len.
  - repeat constructor; lia.
  - exists table'. split; [exact Hrun|].
    apply (patch_modifies_only_selected_glyphs
             unit example_render tt HANGUL_SYLLABLES example_table table' Hrun).
Defined.

Lemma too_large_bundle_is_fatal_example :
  write_back example_compress "dbi.nro" example_buffer 12 4 example_table
             example_world =
  (Err (SystemExit 1),
   World (fs example_world)
         (stdout example_world ++ ["[ERROR] Compressed bundle too large!!"])
         (zstd_calls example_world ++ [Zcompress 22 example_table])) ∧
  ∀ (font : Type) (truetype : string → Z → font) render font_files config_txt
    argv w0 e w',
    main example_decompress example_compress truetype render font_files
         config_txt argv w0 = (Err e, w') →
    fs w' = fs w0.
Proof.
  apply (too_large_bundle_is_fatal_and_writes_nothing
           example_decompress example_compress
           "dbi.nro" example_buffer 12 4 example_table example_world).
  vm_compute. reflexivity.
Defined.

Lemma splice_overwrites_only_the_stream_example :
  ∃ raw' : bytes,
    write_back example_compress "dbi.nro" example_buffer 12
      (limit_at example_buffer (occurrences example_buffer) 12)
      example_table example_world =
    (Ok tt,
     World (<["dbi.nro"%string := raw']> (fs example_world))
           (stdout example_world ++ ["[FONT] Font patch complete."])
           (zstd_calls example_world ++ [Zcompress 22 example_table])) ∧
    length raw' = length example_buffer ∧
    (∀ j : nat, (j < length (example_compress 22 example_table))%nat →
       raw' !! (Z.to_nat 12 + j)%nat = example_compress 22 example_table !! j) ∧
    (∀ i : nat,
       12 + len (example_compress 22 example_table) ≤ Z.of_nat i
         < 12 + limit_at example_buffer (occurrences example_buffer) 12 →
       raw' !! i = example_buffer !! i) ∧
    (∀ i : nat,
       ¬ (12 ≤ Z.of_nat i < 12 + len (example_compress 22 example_table)) →
       raw' !! i = example_buffer !! i).
Proof.
  apply (splice_overwrites_only_the_stream
           example_decompress example_compress "dbi.nro" example_buffer
           example_world 12 example_table _ _ example_table example_world
           (example_locate example_world)).
  vm_compute. discriminate.
Defined.

Lemma patched_file_keeps_its_length_example :
  ∃ nro_path (raw raw' comp : bytes) offset limit,
    example_argv !! 2%nat = Some nro_path ∧
    fs example_world !! nro_path = Some raw ∧
    len comp ≤ limit ∧ 0 ≤ offset ∧ offset + limit ≤ len raw ∧
    raw' = setslice raw offset (offset + len comp) comp ∧
    fs (example_main example_world).2 = <[nro_path := raw']> (fs example_world) ∧
    length raw' = length raw.
Proof.
  destruct (patch_ranges_total unit example_render tt LATIN_BASIC example_table)
    as [bundle' Hpatch];
    [apply example_table_len|repeat constructor; lia|].
  destruct (main_reaches_write_back
              example_decompress example_compress unit (λ _ _, tt)
              example_render ["font/a.ttf"%string] (ConfigRead false true)
              example_argv example_world "en" "dbi.nro" LATIN_BASIC
              example_buffer 12 example_table _ _ "font/a.ttf" [] bundle'
              eq_refl eq_refl eq_refl eq_refl example_locate eq_refl Hpatch)
    as (w3 & Hfs3 & Hmain).
  apply (patched_file_keeps_its_length
           example_decompress example_compress unit (λ _ _, tt) example_render
           ["font/a.ttf"%string] (ConfigRead false true) example_argv example_world
           (example_main example_world).2).
  unfold example_main. rewrite Hmain.
  rewrite write_back_fits by (vm_compute; discriminate). reflexivity.
Defined.

(** * The magic cannot overlap itself *)

Lemma occurs_lookup raw i (k : nat) :
  occurs raw i → (k < 4)%nat → raw !! (Z.to_nat i + k)%nat = MAGIC !! k.
Proof.
  intros [_ Htake] Hk. rewrite <- Htake.
  rewrite lookup_take_lt by (simpl; lia). by rewrite lookup_drop.
Qed.

Lemma occurs_of_lookup raw i :
  0 ≤ i →
  (∀ k : nat, (k < 4)%nat → raw !! (Z.to_nat i + k)%nat = MAGIC !! k) →
  occurs raw i.
Proof.
  intros Hi Hk. split; [done|]. apply list_eq. intros k.
  destruct (decide (k < 4)%nat) as [Hlt|Hge].
  - rewrite lookup_take_lt by (simpl; lia). rewrite lookup_drop. by apply Hk.
  - rewrite lookup_take_ge by (simpl; lia).
    symmetry. apply lookup_ge_None_2. simpl. lia.
Qed.

(** Two occurrences of the magic are at least four bytes apart: its first
    byte is none of the three that follow. *)
Lemma magic_no_overlap raw i j :
  occurs raw i → occurs raw j → i < j → i + 4 ≤ j.
Proof.
  intros Hi Hj Hlt.
  destruct (decide (i + 4 ≤ j)) as [|Hclose]; [done|]. exfalso.
  pose proof (occurs_bounds _ _ Hi) as [Hi0 _].
  pose proof (occurs_lookup raw j 0 Hj ltac:(lia)) as Hhead.
  replace (Z.to_nat j + 0)%nat with (Z.to_nat i + Z.to_nat (j - i))%nat
    in Hhead by lia.
  rewrite (occurs_lookup raw i (Z.to_nat (j - i)) Hi) in Hhead by lia.
  assert (Z.to_nat (j - i) = 1 ∨ Z.to_nat (j - i) = 2 ∨ Z.to_nat (j - i) = 3)%nat
    as [E|[E|E]] by lia; rewrite E in Hhead; discriminate.
Qed.

Lemma limit_at_at_least_4 raw O :
  occurs raw O → 4 ≤ limit_at raw (occurrences raw) O.
Proof.
  intros Hocc. pose proof (occurs_bounds _ _ Hocc) as [_ Hend].
  unfold limit_at. destruct (filter _ _) as [|x rest] eqn:Hfilter; [lia|].
  apply filter_above_head in Hfilter as (Hx & Hlt & _);
    [|apply occurrences_ascending].
  apply elem_of_occurrences in Hx.
  pose proof (magic_no_overlap raw O x Hocc Hx Hlt). lia.
Qed.

Section LocatorRegion.

Variable zstd_decompress : bytes → Z → option bytes.

(** X1.  The offset and budget the locator returns delimit a region of the
    buffer that begins with the magic: the offset is not negative, the
    budget is at least the four bytes of the magic (two occurrences cannot
    overlap), and the region ends within the buffer. *)
Theorem locate_region_within_buffer raw w O table limit w' :
  find_font_bundle zstd_decompress raw w = (Ok (O, table, limit), w') →
  0 ≤ O ∧ 4 ≤ limit ∧ O + limit ≤ len raw ∧
  take 4 (drop (Z.to_nat O) raw) = MAGIC.
Proof.
  intros Hrun.
  pose proof (find_font_bundle_ok_occurs _ _ _ _ _ _ _ Hrun) as Hocc.
  apply find_font_bundle_ok_inv in Hrun as (_ & _ & _ & _ & _ & -> & _).
  pose proof (occurs_bounds _ _ Hocc) as [HO Hend].
  pose proof (limit_at_bounds raw O Hocc) as [_ Hfit].
  pose proof (limit_at_at_least_4 raw O Hocc).
  split; [done|]. split; [done|]. split; [lia|apply Hocc].
Qed.

End LocatorRegion.

(** * What the patch stores *)

Lemma row_words_unique bitmap words1 words2 :
  Forall (λ row, length row = 16%nat) bitmap →
  Forall2 row_word_of bitmap words1 → Forall2 row_word_of bitmap words2 →
  words1 = words2.
Proof.
  intros Hcols H1. revert words2.
  induction H1 as [|row v bitmap words1 Hv _ IH]; intros words2 H2.
  - by apply Forall2_nil_inv_l in H2.
  - apply Forall2_cons_inv_l in H2 as (v2 & words2' & Hv2 & H2 & ->).
    apply Forall_cons in Hcols as [Hrow Hcols].
    f_equal; [by eapply row_word_of_unique|by apply IH].
Qed.

Lemma pack_glyph_bytes bitmap :
  grid16 bitmap →
  ∃ words, Forall2 row_word_of bitmap words ∧ pack bitmap = Ok (glyph_bytes words).
Proof.
  intros Hgrid.
  destruct (write_glyph_spec 0 bitmap (replicate 32 0)) as (words & Hwords & Hrun);
    [done..|].
  exists words. split; [done|]. unfold pack. rewrite Hrun. simpl.
  by rewrite app_nil_r.
Qed.

(** Storing a glyph at [off] puts there what [pack] gives for the bitmap. *)
Lemma write_glyph_pack off bitmap (b : bytes) :
  grid16 bitmap → 0 ≤ off → off + 32 ≤ len b →
  ∃ g, pack bitmap = Ok g ∧ length g = 32%nat ∧
       write_glyph off bitmap b =
       Ok (take (Z.to_nat off) b ++ g ++ drop (Z.to_nat (off + 32)) b).
Proof.
  intros Hgrid Hoff Hlen.
  destruct (pack_glyph_bytes bitmap Hgrid) as (words & Hwords & Hpack).
  destruct (write_glyph_spec off bitmap b Hgrid Hoff Hlen)
    as (words' & Hwords' & Hrun).
  assert (words' = words) as ->
    by (eapply row_words_unique; [apply Hgrid|done..]).
  exists (glyph_bytes words). split; [done|]. split; [|done].
  rewrite length_glyph_bytes. destruct Hgrid as [Hrows _].
  apply Forall2_length in Hwords. lia.
Qed.

Lemma for_each_app {A B} (l1 l2 : list A) (b : B) body :
  for_each (l1 ++ l2) b body = (b1 ← for_each l1 b body; for_each l2 b1 body).
Proof.
  revert b. induction l1 as [|x l1 IH]; intros b; [done|].
  simpl. destruct (body b x) as [b'|]; [apply IH|done].
Qed.

(** A loop that succeeds establishes, for each element, what its pass
    establishes and the later passes keep. *)
Lemma for_each_establishes {A B} (Q : A → B → Prop) (l : list A) body b b' :
  (∀ x b1 b2, x ∈ l → body b1 x = Ok b2 → Q x b2) →
  (∀ x y b1 b2, x ∈ l → body b1 x = Ok b2 → Q y b1 → Q y b2) →
  for_each l b body = Ok b' →
  (∀ y, Q y b → Q y b') ∧ ∀ x, x ∈ l → Q x b'.
Proof.
  revert b. induction l as [|x l IH]; intros b Hest Hkeep Hrun.
  - injection Hrun as <-. split; [done|]. intros x Hx. by apply elem_of_nil in Hx.
  - simpl in Hrun. destruct (body b x) as [b1|] eqn:Hx; [|done].
    destruct (IH b1) as [Hkept Hall]; [| |done|].
    { intros z c1 c2 Hz. apply Hest. by right. }
    { intros z y c1 c2 Hz. apply Hkeep. by right. }
    split.
    + intros y Hy. apply Hkept. eapply Hkeep; [left|done..].
    + intros z [->|Hz]%elem_of_cons; [|by apply Hall].
      apply Hkept. eapply Hest; [left|done].
Qed.

(** A loop each pass of which leaves the value as it is. *)
Lemma for_each_fixed {A B} (l : list A) body (b : B) :
  (∀ x, x ∈ l → body b x = Ok b) → for_each l b body = Ok b.
Proof.
  induction l as [|x l IH]; intros Hfix; [done|].
  simpl. rewrite Hfix by left. apply IH. intros y Hy. apply Hfix. by right.
Qed.

Lemma range_0_GLYPH_H_last : range 0 GLYPH_H = range 0 15 ++ [15].
Proof. reflexivity. Qed.

Lemma write_glyph_ok_bounds off bitmap (b b' : bytes) :
  0 ≤ off → write_glyph off bitmap b = Ok b' → off + 32 ≤ len b.
Proof.
  intros Hoff. unfold write_glyph.
  rewrite range_0_GLYPH_H_last, for_each_app.
  destruct (for_each (range 0 15) b (write_row off bitmap)) as [b1|] eqn:Hfirst;
    [|done].
  simpl. destruct (write_row off bitmap b1 15) as [b2|] eqn:Hlast; [|done].
  intros _.
  apply for_each_same_outside with (T := λ i, off ≤ Z.of_nat i < off + 32)
    in Hfirst as [Hlen1 _]; cycle 1.
  { intros r c1 c2 Hr%elem_of_seqZ. apply write_row_same_outside; lia. }
  unfold write_row in Hlast.
  destruct (list_getitem bitmap 15) as [row|]; [|done]. simpl in Hlast.
  destruct (row_bits row 0 0) as [v|]; [|done]. simpl in Hlast.
  destruct (bytearray_setitem b1 _ _) as [b1'|] eqn:H1; [|done]. simpl in Hlast.
  apply bytearray_setitem_inv in H1 as [_ ->]; [|lia].
  apply bytearray_setitem_inv in Hlast as [Hidx _]; [|lia].
  unfold len in *. rewrite length_insert in Hidx. lia.
Qed.

Section PatchContent.

Variable font : Type.
Variable render : font → Z → Z → Z → Z.

Lemma patch_glyph_ok_bounds ft (b b' : bytes) cp :
  patch_glyph render ft b cp = Ok b' →
  0 ≤ cp < 0x110000 ∧ cp * 32 + 32 ≤ len b.
Proof.
  unfold patch_glyph. destruct (chr cp) as [ch|] eqn:Hch; [|done]. simpl.
  apply chr_inv in Hch as [-> Hcp]. intros Hrun. split; [done|].
  apply write_glyph_ok_bounds in Hrun; [|change BYTES_PER_GLYPH with 32; lia].
  by change BYTES_PER_GLYPH with 32 in Hrun.
Qed.

(** A patch that succeeds replaces the 32 bytes of the code point by its
    packed glyph. *)
Lemma patch_glyph_ok_inv ft (b b' : bytes) cp :
  patch_glyph render ft b cp = Ok b' →
  ∃ g, pack (rasterize_char render ft cp) = Ok g ∧ length g = 32%nat ∧
       b' = take (Z.to_nat (cp * 32)) b ++ g
            ++ drop (Z.to_nat (cp * 32 + 32)) b.
Proof.
  intros Hrun. pose proof (patch_glyph_ok_bounds _ _ _ _ Hrun) as [Hcp Hlen].
  destruct (write_glyph_pack (cp * 32) (rasterize_char render ft cp) b)
    as (g & Hpack & Hg & Hwrite); [apply rasterize_char_grid16|lia|done|].
  exists g. split; [done|]. split; [done|].
  unfold patch_glyph, chr in Hrun.
  destruct (Z.leb_spec 0 cp); [|lia].
  destruct (Z.ltb_spec cp 0x110000); [|lia]. simpl in Hrun.
  change (cp * BYTES_PER_GLYPH) with (cp * 32) in Hrun. congruence.
Qed.

Lemma glyph_at_splice (b g : bytes) cp :
  0 ≤ cp → cp * 32 + 32 ≤ len b → length g = 32%nat →
  glyph_at (take (Z.to_nat (cp * 32)) b ++ g
            ++ drop (Z.to_nat (cp * 32 + 32)) b) cp = g.
Proof.
  intros Hcp Hlen Hg. unfold glyph_at, len in *.
  rewrite drop_app_length' by (rewrite length_take; lia).
  by rewrite take_app_length' by done.
Qed.

Lemma glyph_at_same_outside (b b' : bytes) cp cp' :
  0 ≤ cp → cp ≠ cp' →
  same_outside (λ i, cp' * 32 ≤ Z.of_nat i < cp' * 32 + 32) b b' →
  glyph_at b' cp = glyph_at b cp.
Proof.
  intros Hcp Hne [_ Hsame]. unfold glyph_at. apply list_eq. intros k.
  destruct (decide (k < 32)%nat) as [Hk|Hk].
  - rewrite !lookup_take_lt, !lookup_drop by done. apply Hsame. lia.
  - by rewrite !lookup_take_ge by lia.
Qed.

Lemma patch_glyph_establishes ft (b b' : bytes) cp :
  patch_glyph render ft b cp = Ok b' → holds_glyph render ft b' cp.
Proof.
  intros Hrun. pose proof (patch_glyph_ok_bounds _ _ _ _ Hrun) as [Hcp Hlen].
  pose proof (patch_glyph_same_outside _ _ _ _ _ _ Hrun) as [Hsame _].
  apply patch_glyph_ok_inv in Hrun as (g & Hpack & Hg & ->).
  split; [done|]. split.
  - unfold len in *. rewrite Hsame. done.
  - rewrite glyph_at_splice by (done || lia). done.
Qed.

Lemma patch_glyph_keeps ft (b b' : bytes) cp cp' :
  patch_glyph render ft b cp' = Ok b' →
  holds_glyph render ft b cp → holds_glyph render ft b' cp.
Proof.
  intros Hrun (Hcp & Hlen & Hpack).
  destruct (decide (cp = cp')) as [<-|Hne];
    [by eapply patch_glyph_establishes|].
  pose proof (patch_glyph_same_outside _ _ _ _ _ _ Hrun) as Hsame.
  split; [done|]. split.
  - destruct Hsame as [Hl _]. unfold len in *. by rewrite Hl.
  - rewrite (glyph_at_same_outside b b' cp cp') by (done || lia). done.
Qed.

(** Patching a code point whose place already holds its glyph changes
    nothing. *)
Lemma patch_glyph_fixed ft (b : bytes) cp :
  holds_glyph render ft b cp → patch_glyph render ft b cp = Ok b.
Proof.
  intros (Hcp & Hlen & Hpack).
  destruct (patch_glyph_spec font render ft b cp Hcp Hlen) as (words & _ & Hrun).
  pose proof (patch_glyph_ok_inv _ _ _ _ Hrun) as (g & Hpack' & _ & Heq).
  rewrite Hrun, Heq. f_equal.
  assert (g = glyph_at b cp) as -> by congruence.
  unfold glyph_at.
  replace (Z.to_nat (cp * 32 + 32)) with (Z.to_nat (cp * 32) + 32)%nat by lia.
  rewrite <- drop_drop, take_drop. apply take_drop.
Qed.

Lemma patch_ranges_holds ft ranges (table table' : bytes) :
  patch_ranges render ft ranges table = Ok table' →
  ∀ start stop cp, (start, stop) ∈ ranges → start ≤ cp < stop →
    holds_glyph render ft table' cp.
Proof.
  intros Hrun start stop cp Hrange Hcp. unfold patch_ranges in Hrun.
  apply (for_each_establishes
           (λ '(s, e) b, ∀ c, s ≤ c < e → holds_glyph render ft b c))
    in Hrun as [_ Hall].
  - by apply (Hall (start, stop)).
  - intros [s e] b1 b2 _ Hinner c Hc.
    apply (for_each_establishes (λ c b, holds_glyph render ft b c))
      in Hinner as [_ Hall].
    + apply Hall. apply elem_of_seqZ. lia.
    + intros x c1 c2 _. apply patch_glyph_establishes.
    + intros x y c1 c2 _. apply patch_glyph_keeps.
  - intros [s e] [s' e'] b1 b2 _ Hinner Hheld c Hc.
    apply (for_each_establishes (λ c b, holds_glyph render ft b c))
      in Hinner as [Hkept _].
    + by apply Hkept, Hheld.
    + intros x c1 c2 _. apply patch_glyph_establishes.
    + intros x y c1 c2 _. apply patch_glyph_keeps.
Qed.

(** X2.  After a patch that succeeds, the place of every code point of the
    selected ranges holds exactly what packing the rasterized glyph gives:
    [table'[cp*32 : cp*32+32] = pack(rasterize_char(ft, chr(cp)))]. *)
Theorem patch_stores_packed_glyphs ft ranges (table table' : bytes) :
  patch_ranges render ft ranges table = Ok table' →
  ∀ start stop cp, (start, stop) ∈ ranges → start ≤ cp < stop →
    cp * 32 + 32 ≤ len table' ∧
    pack (rasterize_char render ft cp)
    = Ok (take 32 (drop (Z.to_nat (cp * 32)) table')).
Proof.
  intros Hrun start stop cp Hrange Hcp.
  destruct (patch_ranges_holds ft ranges table table' Hrun start stop cp)
    as (_ & Hlen & Hpack); done.
Qed.

(** X3.  Patching is idempotent: on the table a patch has produced, the
    same patch (same font, same ranges) succeeds and changes nothing. *)
Theorem patch_is_idempotent ft ranges (table table' : bytes) :
  patch_ranges render ft ranges table = Ok table' →
  patch_ranges render ft ranges table' = Ok table'.
Proof.
  intros Hrun. pose proof (patch_ranges_holds ft ranges table table' Hrun) as Hheld.
  unfold patch_ranges. apply for_each_fixed. intros [start stop] Hrange.
  apply for_each_fixed. intros cp Hcp%elem_of_seqZ.
  apply patch_glyph_fixed. apply (Hheld start stop); [done|lia].
Qed.

End PatchContent.

(** * The byte layout of a packed glyph *)

(** Where the bit of a column lies in the two bytes of its row. *)
Lemma glyph_bytes_pixel words (r col : nat) row v on :
  words !! r = Some v → row_word_of row v → row !! col = Some on →
  (col < 16)%nat →
  ∃ byte,
    glyph_bytes words !! (2 * r + (if decide (col < 8)%nat then 1 else 0))%nat
    = Some byte ∧
    0 ≤ byte < 256 ∧
    Z.testbit byte (7 - Z.of_nat (col `mod` 8)) = on.
Proof.
  intros Hv [Hrange Hbits] Hon Hcol.
  destruct (glyph_bytes_lookup _ _ _ Hv) as [Hlo Hhi].
  specialize (Hbits col on Hon).
  case_decide as Hleft.
  - exists (v `div` 256). split; [done|]. split.
    { split; [apply Z.div_pos; lia|apply Z.div_lt_upper_bound; lia]. }
    rewrite Nat.mod_small by lia.
    change 256 with (2 ^ 8). rewrite Z.div_pow2_bits by lia.
    by replace (7 - Z.of_nat col + 8) with (15 - Z.of_nat col) by lia.
  - exists (v `mod` 256). rewrite Nat.add_0_r. split; [done|]. split.
    { apply Z.mod_pos_bound. lia. }
    assert (col `mod` 8 = col - 8)%nat as ->.
    { replace col with ((col - 8) + 1 * 8)%nat at 1 by lia.
      rewrite Nat.Div0.mod_add. apply Nat.mod_small. lia. }
    change 256 with (2 ^ 8). rewrite Z.mod_pow2_bits_low by lia.
    by replace (7 - Z.of_nat (col - 8)) with (15 - Z.of_nat col) by lia.
Qed.

(** X4.  In the 32 bytes [pack] gives for a 16x16 bitmap, row [r] takes
    bytes [2r] and [2r+1]; the pixels of columns 0 to 7 are bits 7 down to
    0 of the second of them, and those of columns 8 to 15 are bits 7 down
    to 0 of the first. *)
Theorem pack_byte_layout (bitmap : list (list bool)) (g : bytes)
    (r col : nat) row on :
  grid16 bitmap → pack bitmap = Ok g →
  bitmap !! r = Some row → row !! col = Some on →
  ∃ byte,
    g !! (2 * r + (if decide (col < 8)%nat then 1 else 0))%nat = Some byte ∧
    0 ≤ byte < 256 ∧
    Z.testbit byte (7 - Z.of_nat (col `mod` 8)) = on.
Proof.
  intros Hgrid Hpack Hrow Hon.
  destruct (pack_glyph_bytes bitmap Hgrid) as (words & Hwords & Hpack').
  assert (g = glyph_bytes words) as -> by congruence.
  destruct (Forall2_lookup_l _ _ _ _ _ Hwords Hrow) as (v & Hv & Hword).
  apply (glyph_bytes_pixel words r col row v on); try done.
  destruct Hgrid as [_ Hcols]. eapply Forall_lookup_1 in Hcols; [|done].
  apply lookup_lt_Some in Hon. simpl in Hcols. lia.
Qed.

(** X5.  [pack] loses nothing: two 16x16 bitmaps that pack to the same
    bytes are the same bitmap. *)
Theorem pack_injective (bitmap1 bitmap2 : list (list bool)) :
  grid16 bitmap1 → grid16 bitmap2 → pack bitmap1 = pack bitmap2 →
  bitmap1 = bitmap2.
Proof.
  intros Hgrid1 Hgrid2 Hsame.
  destruct (pack_glyph_bytes bitmap1 Hgrid1) as (words1 & Hwords1 & Hpack1).
  destruct (pack_glyph_bytes bitmap2 Hgrid2) as (words2 & Hwords2 & Hpack2).
  rewrite <- (unpack_glyph_bytes bitmap1 words1) by done.
  rewrite <- (unpack_glyph_bytes bitmap2 words2) by done.
  congruence.
Qed.

(** * The ranges of the languages *)

Lemma FONT_RANGES_inv lang ranges :
  FONT_RANGES !! lang = Some ranges → (lang, ranges) ∈ FONT_RANGES_items.
Proof. apply elem_of_list_to_map_2. Qed.

(** Every range the script knows lies in the Basic Multilingual Plane. *)
Lemma selected_ranges_bmp config_txt lang lang_ranges :
  FONT_RANGES !! lang = Some lang_ranges →
  Forall (λ '(start, stop), 0 ≤ start ∧ stop ≤ 0x10000)
         (selected_ranges config_txt lang_ranges).
Proof.
  intros Hin%FONT_RANGES_inv.
  assert (Forall (λ '(start, stop), 0 ≤ start ∧ stop ≤ 0x10000) lang_ranges)
    as Hlang.
  { unfold FONT_RANGES_items in Hin.
    repeat (apply elem_of_cons in Hin as [[= _ ->]|Hin];
            [repeat constructor; lia|]).
    by apply elem_of_nil in Hin. }
  unfold selected_ranges. destruct (read_font_num config_txt); [|done].
  apply Forall_app. split; [done|]. repeat constructor; lia.
Qed.

(** * The runs of the script *)



Section MainBehaviour.

Variable zstd_decompress : bytes → Z → option bytes.
Variable zstd_compress : Z → bytes → bytes.
Variable font : Type.
Variable truetype : string → Z → font.
Variable render : font → Z → Z → Z → Z.
Variable font_files : list string.
Variable config_txt : config_read.



(** X6.  Over a table of the expected size, patching the ranges of any
    language the script knows, with or without the digits, raises nothing
    (no index leaves the table, no shift count is negative) and keeps the
    length of the table. *)
Theorem language_patch_never_raises ft lang lang_ranges (table : bytes) :
  FONT_RANGES !! lang = Some lang_ranges →
  len table = EXPECTED_SIZE →
  ∃ table' : bytes,
    patch_ranges render ft (selected_ranges config_txt lang_ranges) table
    = Ok table' ∧
    length table' = length table.
Proof.
  intros Hlang Hlen.
  destruct (patch_ranges_total font render ft
              (selected_ranges config_txt lang_ranges) table Hlen)
    as [table' Hrun]; [by eapply selected_ranges_bmp|].
  exists table'. split; [done|].
  by apply patch_ranges_same_outside in Hrun as [? _].
Qed.




(** X10.  Whatever the outcome of a run, no file is created or removed,
    and no file other than the one named on the command line changes. *)
Theorem main_touches_only_the_named_file argv w r w' :
  main zstd_decompress zstd_compress truetype render font_files config_txt
       argv w = (r, w') →
  dom (fs w') = dom (fs w) ∧
  ∀ p, argv !! 2%nat ≠ Some p → fs w' !! p = fs w !! p.
Proof.
  intros Hrun.
  apply main_inv in Hrun
    as [(e & _ & ->)
       |(lang & path & rs & raw & off & b & lim & w1 & w2 & f & b' & w3
         & _ & Hpath & _ & Hraw & _ & _ & _ & _ & Hfs3 & Hback)]; [done|].
  apply write_back_inv in Hback as [(_ & -> & _)|(_ & _ & ->)];
    rewrite Hfs3; [done|].
  split.
  - apply dom_insert_lookup_L. by rewrite Hraw.
  - intros p Hp. apply lookup_insert_ne. congruence.
Qed.

End MainBehaviour.

(** * Locating again in the buffer written back *)

Lemma limit_at_le_occurrence raw O x :
  occurs raw x → O < x → limit_at raw (occurrences raw) O ≤ x - O.
Proof.
  intros Hx Hlt. unfold limit_at.
  destruct (filter _ _) as [|y rest] eqn:Hfilter.
  - exfalso. eapply (filter_nil_not_elem_of _ _ x Hfilter); [lia|].
    by apply elem_of_occurrences.
  - apply filter_above_head in Hfilter as (_ & _ & Hmin);
      [|apply occurrences_ascending].
    specialize (Hmin x ltac:(by apply elem_of_occurrences) Hlt). lia.
Qed.

(** Occurrence of the magic only depends on the four bytes at the offset. *)
Lemma occurs_same_bytes (raw raw' : bytes) i :
  (∀ k : nat, (k < 4)%nat →
     raw' !! (Z.to_nat i + k)%nat = raw !! (Z.to_nat i + k)%nat) →
  occurs raw i → occurs raw' i.
Proof.
  intros Hsame Hocc. pose proof (occurs_bounds _ _ Hocc) as [Hi _].
  apply occurs_of_lookup; [done|]. intros k Hk.
  rewrite Hsame by done. by apply occurs_lookup.
Qed.

Section Relocation.

Variable zstd_decompress : bytes → Z → option bytes.

(** A stream that begins with the magic, spliced in at an occurrence of
    the magic within the room found for it. *)
Lemma splice_same_bytes (raw comp : bytes) O (i : nat) :
  occurs raw O → O + len comp ≤ len raw → take 4 comp = MAGIC →
  Z.of_nat i < O + 4 ∨ O + len comp ≤ Z.of_nat i →
  setslice raw O (O + len comp) comp !! i = raw !! i.
Proof.
  intros Hocc Hfit Hmagic Hi.
  pose proof (occurs_bounds _ _ Hocc) as [HO _].
  destruct (decide (O ≤ Z.of_nat i < O + len comp)) as [Hin|Hout];
    [|by apply setslice_lookup_outside].
  assert (4 ≤ len comp) as Hlen4.
  { apply (f_equal length) in Hmagic. rewrite length_take in Hmagic.
    change (length MAGIC) with 4%nat in Hmagic. unfold len. lia. }
  replace i with (Z.to_nat O + (i - Z.to_nat O))%nat by lia.
  rewrite setslice_lookup_inside by (unfold len in *; lia).
  rewrite (occurs_lookup raw O (i - Z.to_nat O) Hocc) by lia.
  rewrite <- Hmagic. by rewrite lookup_take_lt by lia.
Qed.

(** X11.  Locating again after the write-back.  Let the locator accept
    offset [O] with a budget, and let a stream that begins with the magic
    and fits the budget be spliced in at [O].  In the new buffer the magic
    occurs below [O] exactly where it did before and still occurs at [O].
    If the decompressor reads a table of the expected size from the new
    slice at [O] and still rejects the candidates below [O], the locator
    run on the new buffer accepts [O] again with that table, and with a
    budget that is at least 4 and no larger than before. *)
Theorem locate_again_after_write_back
    (raw : bytes) w0 O (table0 : bytes) limit w1 (comp table : bytes) w :
  find_font_bundle zstd_decompress raw w0 = (Ok (O, table0, limit), w1) →
  len comp ≤ limit → take 4 comp = MAGIC →
  decompresses_to zstd_decompress
    (setslice raw O (O + len comp) comp) O table →
  (∀ i, occurs raw i → i < O →
        rejected zstd_decompress (setslice raw O (O + len comp) comp) i) →
  (∀ i, i ≤ O → occurs (setslice raw O (O + len comp) comp) i ↔ occurs raw i) ∧
  ∃ limit' w',
    find_font_bundle zstd_decompress (setslice raw O (O + len comp) comp) w
    = (Ok (O, table, limit'), w') ∧
    4 ≤ limit' ≤ limit.
Proof.
  intros Hrun Hfits Hmagic Hvalid Hdecoys.
  pose proof (find_font_bundle_ok_occurs _ _ _ _ _ _ _ Hrun) as Hocc.
  apply find_font_bundle_ok_inv in Hrun as (_ & _ & _ & _ & _ & -> & _).
  pose proof (limit_at_bounds raw O Hocc) as [_ Hregion].
  pose proof (occurs_bounds _ _ Hocc) as [HO _].
  set (raw' := setslice raw O (O + len comp) comp) in *.
  assert (len raw' = len raw) as Hlen'.
  { unfold len, raw'. f_equal. apply setslice_length; lia. }
  assert (∀ i, i ≤ O → occurs raw' i ↔ occurs raw i) as Hbelow.
  { intros i Hi. split; intros Hi'; pose proof (occurs_bounds _ _ Hi') as [? _];
      (eapply occurs_same_bytes; [|done]); intros k Hk;
      [symmetry|]; apply splice_same_bytes; try done; try lia. }
  assert (occurs raw' O) as Hocc' by (by apply Hbelow).
  split; [done|].
  eexists _, _. split.
  - apply find_font_bundle_first_valid; [done..|].
    intros i Hi Hlt. apply Hdecoys; [|done]. apply Hbelow; [lia|done].
  - split; [by apply limit_at_at_least_4|].
    unfold limit_at at 2.
    destruct (filter _ (occurrences raw)) as [|x rest] eqn:Hfilter.
    + pose proof (limit_at_bounds raw' O Hocc'). lia.
    + pose proof Hfilter as Hhead.
      apply filter_above_head in Hhead as (Hx & Hlt & _);
        [|apply occurrences_ascending].
      apply elem_of_occurrences in Hx.
      assert (limit_at raw (occurrences raw) O = x - O) as Hlimit
        by (unfold limit_at; by rewrite Hfilter).
      apply limit_at_le_occurrence; [|done].
      pose proof (occurs_bounds _ _ Hx) as [? _].
      eapply occurs_same_bytes; [|done]. intros k Hk.
      apply splice_same_bytes; try done; lia.
Qed.

End Relocation.

(** * The glyph of any character can be packed *)

(** X12.  Whatever the font draws, the bitmap [rasterize_char] returns can
    be packed: the loop over its rows raises nothing and gives 32 bytes,
    each pixel being on exactly when its luminance is above 128. *)
Theorem rasterized_glyph_always_packs
    (font : Type) (render : font → Z → Z → Z → Z) ft ch :
  ∃ g : bytes,
    pack (rasterize_char render ft ch) = Ok g ∧ length g = 32%nat ∧
    ∀ (r col : nat), (r < 16)%nat → (col < 16)%nat →
      ∃ byte,
        g !! (2 * r + (if decide (col < 8)%nat then 1 else 0))%nat = Some byte ∧
        Z.testbit byte (7 - Z.of_nat (col `mod` 8))
        = (render ft ch (Z.of_nat col) (Z.of_nat r) >? 128).
Proof.
  pose proof (rasterize_char_grid16 font render ft ch) as Hgrid.
  destruct (pack_glyph_bytes _ Hgrid) as (words & Hwords & Hpack).
  exists (glyph_bytes words). split; [done|]. split.
  { rewrite length_glyph_bytes. destruct Hgrid as [Hrows _].
    apply Forall2_length in Hwords. lia. }
  intros r col Hr Hcol.
  destruct Hgrid as [Hrows Hcols].
  destruct (lookup_lt_is_Some_2 (rasterize_char render ft ch) r) as [row Hrow];
    [lia|].
  pose proof (Forall_lookup_1 _ _ _ _ Hcols Hrow) as Hwidth. simpl in Hwidth.
  destruct (lookup_lt_is_Some_2 row col) as [on Hon]; [lia|].
  pose proof (rasterize_char_pixel font render ft ch r col row on Hrow Hon)
    as Hpixel.
  destruct (Forall2_lookup_l _ _ _ _ _ Hwords Hrow) as (v & Hv & Hword).
  destruct (glyph_bytes_pixel words r col row v on Hv Hword Hon Hcol)
    as (byte & Hbyte & _ & Hbit).
  exists byte. split; [done|]. congruence.
Qed.

(** * The configuration file *)

Lemma split_at_equals_spec line :
  match split_at_equals line with
  | Some (key, val) =>
      line = (key +:+ "=" +:+ val)%string ∧ split_at_equals key = None
  | None => ∀ key val, line ≠ (key +:+ "=" +:+ val)%string
  end.
Proof.
  induction line as [|c rest IH]; simpl.
  - intros [|? ?] val; discriminate.
  - destruct (Ascii.eqb_spec c "="%char) as [->|Hc]; [done|].
    destruct (split_at_equals rest) as [[key val]|].
    + destruct IH as [-> Hkey]. split; [done|]. simpl.
      destruct (Ascii.eqb_spec c "="%char); [done|]. by rewrite Hkey.
    + intros [|c' key] val; simpl; intros [= ? ?]; [done|].
      by eapply IH.
Qed.

Section ConfigFileProperties.

Variable strip : string → string.
Variable lower : string → string.

Lemma config_line_assigns b line value :
  assigns_font_num strip lower line value →
  config_line strip lower b line = value.
Proof.
  intros (key & val & Hsplit & Hkey & ->). unfold config_line.
  rewrite Hsplit, Hkey. done.
Qed.

Lemma config_line_ignored b line :
  (∀ value, ¬ assigns_font_num strip lower line value) →
  config_line strip lower b line = b.
Proof.
  intros Hnone. unfold config_line.
  destruct (split_at_equals (strip line)) as [[key val]|] eqn:Hsplit; [|done].
  destruct (String.eqb_spec (strip key) "font_num") as [Hkey|]; [|done].
  destruct (Hnone (String.eqb (lower (strip val)) "true")).
  by exists key, val.
Qed.

Lemma config_lines_ignored b lines :
  Forall (λ line, ∀ value, ¬ assigns_font_num strip lower line value) lines →
  fold_left (config_line strip lower) lines b = b.
Proof.
  intros Hall. revert b. induction Hall as [|line lines Hline _ IH]; intros b.
  - done.
  - simpl. by rewrite config_line_ignored, IH.
Qed.

(** X13.  [load_config] on a file it can read: the value of [font_num] is
    the one given by the last line that assigns it, and [False] when no
    line does; lines without ["="] and lines for other keys change
    nothing, and no warning is printed.  A line assigns [font_num] when
    the stripped text before its first ["="] is [font_num]; the value is
    whether the stripped, lower-cased text after that ["="] is exactly
    [true]. *)
Theorem load_config_last_assignment_wins
    (before after : list string) line value :
  assigns_font_num strip lower line value →
  Forall (λ l, ∀ v, ¬ assigns_font_num strip lower l v) after →
  read_config strip lower (Some (before ++ line :: after))
  = ConfigRead value false ∧
  ∀ lines,
    Forall (λ l, ∀ v, ¬ assigns_font_num strip lower l v) lines →
    read_config strip lower (Some lines) = ConfigRead false false.
Proof.
  intros Hline Hafter. split.
  - unfold read_config. f_equal.
    rewrite fold_left_app. simpl.
    rewrite (config_line_assigns _ line value Hline).
    by apply config_lines_ignored.
  - intros lines Hlines. unfold read_config. f_equal.
    by apply config_lines_ignored.
Qed.

End ConfigFileProperties.

(** ** The further properties at the example *)

Lemma locate_region_within_buffer_example :
  0 ≤ 12 ∧ 4 ≤ limit_at example_buffer (occurrences example_buffer) 12 ∧
  12 + limit_at example_buffer (occurrences example_buffer) 12
    ≤ len example_buffer ∧
  take 4 (drop (Z.to_nat 12) example_buffer) = MAGIC.
Proof.
  apply (locate_region_within_buffer example_decompress example_buffer
           example_world 12 example_table _ _ (example_locate example_world)).
Defined.

Lemma patch_stores_packed_glyphs_example :
  ∃ table' : bytes,
    patch_ranges example_render tt HANGUL_SYLLABLES example_table = Ok table' ∧
    ∀ start stop cp, (start, stop) ∈ HANGUL_SYLLABLES → start ≤ cp < stop →
      cp * 32 + 32 ≤ len table' ∧
      pack (rasterize_char example_render tt cp)
      = Ok (take 32 (drop (Z.to_nat (cp * 32)) table')).
Proof.
  destruct (patch_ranges_total unit example_render tt HANGUL_SYLLABLES example_table)
    as [table' Hrun].
  - apply example_table_len.
  - repeat constructor; lia.
  - exists table'. split; [exact Hrun|].
    apply (patch_stores_packed_glyphs unit example_render tt HANGUL_SYLLABLES
             example_table table' Hrun).
Defined.

Lemma patch_is_idempotent_example :
  ∃ table' : bytes,
    patch_ranges example_render tt LATIN_BASIC example_table = Ok table' ∧
    patch_ranges example_render tt LATIN_BASIC table' = Ok table'.
Proof.
  destruct (patch_ranges_total unit example_render tt LATIN_BASIC example_table)
    as [table' Hrun].
  - apply example_table_len.
  - repeat constructor; lia.
  - exists table'. split; [exact Hrun|].
    apply (patch_is_idempotent unit example_render tt LATIN_BASIC
             example_table table' Hrun).
Defined.

Lemma pack_byte_layout_example :
  ∃ byte,
    example_glyph !! (2 * 3 + (if decide (2 < 8)%nat then 1 else 0))%nat
    = Some byte ∧
    0 ≤ byte < 256 ∧
    Z.testbit byte (7 - Z.of_nat (2 `mod` 8)) = true.
Proof.
  apply (pack_byte_layout example_bitmap example_glyph 3 2
           ((λ cx, example_render tt 0xAC00 cx 3 >? 128) <$> range 0 GLYPH_W)
           true).
  - split; [reflexivity|]. vm_compute. repeat constructor.
  - vm_compute. reflexivity.
  - vm_compute. reflexivity.
  - vm_compute. reflexivity.
Defined.

Lemma pack_injective_example :
  rasterize_char example_render tt (0xAC00 + 3) = example_bitmap.
Proof.
  apply (pack_injective (rasterize_char example_render tt (0xAC00 + 3))
           example_bitmap).
  - split; [reflexivity|]. vm_compute. repeat constructor.
  - split; [reflexivity|]. vm_compute. repeat constructor.
  - vm_compute. reflexivity.
Defined.

Lemma language_patch_never_raises_example :
  ∃ table' : bytes,
    patch_ranges example_render tt
      (selected_ranges (ConfigRead true false) HANGUL_SYLLABLES) example_table
    = Ok table' ∧
    length table' = length example_table.
Proof.
  apply (language_patch_never_raises unit example_render
           (ConfigRead true false) tt "ko" HANGUL_SYLLABLES example_table).
  - vm_compute. reflexivity.
  - unfold example_table, len. rewrite length_replicate. apply Z2Nat.id.
    vm_compute. discriminate.
Defined.




Lemma main_touches_only_the_named_file_example :
  dom (fs (example_main example_world).2) = dom (fs example_world) ∧
  ∀ p, example_argv !! 2%nat ≠ Some p →
       fs (example_main example_world).2 !! p = fs example_world !! p.
Proof.
  apply (main_touches_only_the_named_file
           example_decompress example_compress unit (λ _ _, tt) example_render
           ["font/a.ttf"%string] (ConfigRead false true)
           example_argv example_world
           (example_main example_world).1 (example_main example_world).2).
  apply surjective_pairing.
Defined.

Lemma example_splice_same :
  setslice example_buffer 12 (12 + len (MAGIC ++ [1])) (MAGIC ++ [1])
  = example_buffer.
Proof. reflexivity. Qed.

Lemma locate_again_after_write_back_example :
  (∀ i, i ≤ 12 →
        occurs (setslice example_buffer 12 (12 + len (MAGIC ++ [1]))
                         (MAGIC ++ [1])) i
        ↔ occurs example_buffer i) ∧
  ∃ limit' w',
    find_font_bundle example_decompress
      (setslice example_buffer 12 (12 + len (MAGIC ++ [1])) (MAGIC ++ [1]))
      example_world
    = (Ok (12, example_table, limit'), w') ∧
    4 ≤ limit' ≤ limit_at example_buffer (occurrences example_buffer) 12.
Proof.
  apply (locate_again_after_write_back example_decompress example_buffer
           example_world 12 example_table _ _ (MAGIC ++ [1]) example_table
           example_world (example_locate example_world)).
  - vm_compute. discriminate.
  - reflexivity.
  - rewrite example_splice_same. apply example_bundle_valid.
  - intros i Hi Hlt. rewrite example_splice_same.
    apply example_decoys_rejected; [done|lia].
Defined.

Lemma load_config_last_assignment_wins_example :
  read_config id id
    (Some (["# settings"%string; "font_num=false"%string]
           ++ "font_num=true"%string :: ["other=1"%string]))
  = ConfigRead true false ∧
  ∀ lines,
    Forall (λ l, ∀ v, ¬ assigns_font_num id id l v) lines →
    read_config id id (Some lines) = ConfigRead false false.
Proof.
  apply (load_config_last_assignment_wins id id
           ["# settings"; "font_num=false"]%string ["other=1"]%string
           "font_num=true" true).
  - exists "font_num"%string, "true"%string. by repeat split.
  - repeat constructor.
    intros v (key & val & Hsplit & Hkey & _).
    vm_compute in Hsplit. injection Hsplit as <- <-. discriminate.
Defined.
